(** * findyourway: loop search on a street network

    A shallow embedding of the two scripts of the repository,
    [src/main.py] (module [Main]) and [src/main copy.py] (module
    [MainCopy]), and the properties of their graph preprocessing, random
    walk, path scoring and top-k selection.

    Conventions of the embedding:
    - node identifiers are OSM ids, Python [int]s: [Z];
    - lengths, distances, margins and scores are Python numbers; they are
      modelled by exact rationals [Q] (rounding of binary floating point is
      not modelled);
    - a [set] is a [gset], a [dict] / [defaultdict(int)] a [gmap] read with
      default [0];
    - the graph is the [networkx.MultiDiGraph] that [osmnx] builds: a node
      table and the edges [(u, v, key, data)] in insertion order;
    - [random.shuffle] draws from the global generator: the generator state
      is threaded explicitly ([rng], [shuffle]);
    - [ox.distance.great_circle] is an external collaborator, a parameter;
    - an uncaught Python exception is the [Raised] outcome. *)

From Stdlib Require Import ZArith QArith Qabs Lia Lqa List String.
From stdpp Require Import base option list sorting gmap sets strings.

Local Open Scope Z_scope.

(* ===================================================================== *)
(** * Python values and effects *)
(* ===================================================================== *)

Definition node := Z.

Inductive exn : Type :=
| KeyError (n : node).

Inductive outcome (A : Type) : Type :=
| Returned (a : A)
| Raised (e : exn).
Arguments Returned {A} a.
Arguments Raised {A} e.

Definition obind {A B} (m : outcome A) (f : A -> outcome B) : outcome B :=
  match m with
  | Returned a => f a
  | Raised e => Raised e
  end.

#[global] Instance Qlt_dec (x y : Q) : Decision (x < y)%Q.
Proof. destruct (Qlt_le_dec x y) as [H|H]; [left; exact H | right; apply Qle_not_lt; exact H]. Defined.

#[global] Instance Qle_dec (x y : Q) : Decision (x <= y)%Q.
Proof. destruct (Qlt_le_dec y x) as [H|H]; [right; apply Qlt_not_le; exact H | left; exact H]. Defined.

(** [len(set(path))]. *)
Definition len_set (path : list node) : nat :=
  size (list_to_set path : gset node).

(* ===================================================================== *)
(** * The graph: [networkx.MultiDiGraph] *)
(* ===================================================================== *)

(** The ["highway"] attribute of an edge: absent, one tag, or a list. *)
Inductive highway_attr : Type :=
| HwAbsent
| HwTag (t : string)
| HwList (ts : list string).

(** The data dictionary of an edge, restricted to the two keys read. *)
Record edge_data : Type := {
  d_length : option Q;
  d_highway : highway_attr
}.

Record edge : Type := {
  e_u : node;
  e_v : node;
  e_k : Z;
  e_d : edge_data
}.

(** Coordinates [(y, x)] of a node. *)
Record graph : Type := {
  g_nodes : gmap node (Q * Q);
  g_edges : list edge
}.

Definition edge_id (e : edge) : node * node * Z := (e_u e, e_v e, e_k e).

(** [G.remove_edges_from(ebunch)]: every edge named in [ebunch] goes; a
    triple naming no edge (or named twice) is skipped silently. *)
Definition remove_edges_from (G : graph) (ebunch : list (node * node * Z)) : graph :=
  {| g_nodes := g_nodes G;
     g_edges := filter (fun e => edge_id e ∉ ebunch) (g_edges G) |}.

(** [G.remove_nodes_from(ns)]: the nodes go together with their incident
    edges. *)
Definition remove_nodes_from (G : graph) (ns : list node) : graph :=
  {| g_nodes := filter (fun kv => kv.1 ∉ ns) (g_nodes G);
     g_edges := filter (fun e => (e_u e ∉ ns) ∧ (e_v e ∉ ns)) (g_edges G) |}.

(** A node is incident to an edge at either end. *)
Definition incident (n : node) (e : edge) : Prop := e_u e = n ∨ e_v e = n.

#[global] Instance incident_dec n e : Decision (incident n e).
Proof. unfold incident. apply _. Defined.

(** [nx.isolates(G)]: the nodes of degree zero. *)
Definition is_isolate (G : graph) (n : node) : Prop :=
  Forall (fun e => ¬ incident n e) (g_edges G).

Definition isolates (G : graph) : list node :=
  filter (is_isolate G) (elements (dom (g_nodes G))).

(** [list(G[u])]: the successors of [u], in the order their first edge was
    inserted; [KeyError] when [u] is not a node. *)
Fixpoint first_occurrences (seen : list node) (l : list node) : list node :=
  match l with
  | [] => []
  | x :: l' =>
      if decide (x ∈ seen) then first_occurrences seen l'
      else x :: first_occurrences (x :: seen) l'
  end.

Definition successors (G : graph) (u : node) : outcome (list node) :=
  match g_nodes G !! u with
  | None => Raised (KeyError u)
  | Some _ =>
      Returned (first_occurrences []
                  (e_v <$> filter (fun e => e_u e = u) (g_edges G)))
  end.

(** [G.get_edge_data(u, v)]: the data of the parallel edges from [u] to [v]
    by key, [None] when there is none. *)
Definition get_edge_data (G : graph) (u v : node) : option (list (Z * edge_data)) :=
  match filter (fun e => e_u e = u ∧ e_v e = v) (g_edges G) with
  | [] => None
  | es => Some ((fun e => (e_k e, e_d e)) <$> es)
  end.

(** The [try] block of [random_loop]:
    [list(G.get_edge_data(node, neighbor).values())[0].get("length", 1)];
    [None] stands for any exception, which the bare [except] turns into
    [continue]. *)
Definition edge_len (G : graph) (u v : node) : option Q :=
  match get_edge_data G u v with
  | None => None
  | Some [] => None
  | Some ((_, edge_data) :: _) => Some (default 1%Q (d_length edge_data))
  end.

(** [G.nodes[n]['y'], G.nodes[n]['x']]; every node of an [osmnx] graph
    carries both, so the only failure is a node that is not in the graph. *)
Definition coords (G : graph) (n : node) : outcome (Q * Q) :=
  match g_nodes G !! n with
  | None => Raised (KeyError n)
  | Some yx => Returned yx
  end.

(* ===================================================================== *)
(** * Python list and tuple helpers *)
(* ===================================================================== *)

(** [l[-2]], for a list of at least two elements. *)
Definition second_last (l : list node) : option node :=
  l !! (length l - 2)%nat.

(** [l[:k]]: a negative [k] counts from the end. *)
Definition slice_to {A} (l : list A) (k : Z) : list A :=
  if decide (0 ≤ k) then take (Z.to_nat k) l
  else take (Z.to_nat (Z.of_nat (length l) + k)) l.

(** [range(1, n + 1)]. *)
Definition range1 (n : Z) : list Z := seqZ 1 n.

(** [tuple(sorted(set(path)))]. *)
Definition path_hash (path : list node) : list node :=
  merge_sort Z.le (elements (list_to_set path : gset node)).

(** Comparison of two lists of [int]s, as Python orders lists. *)
Fixpoint list_compare (a b : list Z) : comparison :=
  match a, b with
  | [], [] => Eq
  | [], _ :: _ => Lt
  | _ :: _, [] => Gt
  | x :: a', y :: b' =>
      match x ?= y with
      | Eq => list_compare a' b'
      | c => c
      end
  end.

(** One entry of [results]: the tuple [(score, path, dist)]. *)
Record entry : Type := {
  r_score : Q;
  r_path : list node;
  r_dist : Q
}.

(** Comparison of two [(score, path, dist)] tuples, component by
    component. *)
Definition entry_compare (a b : entry) : comparison :=
  match (r_score a ?= r_score b)%Q with
  | Eq =>
      match list_compare (r_path a) (r_path b) with
      | Eq => (r_dist a ?= r_dist b)%Q
      | c => c
      end
  | c => c
  end.

(** [results.sort(reverse=True)]: a stable sort, greatest first; equal
    entries keep their order. *)
Fixpoint insert_desc (x : entry) (l : list entry) : list entry :=
  match l with
  | [] => [x]
  | y :: l' =>
      match entry_compare x y with
      | Lt => y :: insert_desc x l'
      | _ => x :: y :: l'
      end
  end.

Definition sort_reverse (l : list entry) : list entry :=
  foldr insert_desc [] l.

(** The state of one walk; [E] is the type of [visited_edges], which
    differs between the two scripts. *)
Record walk_state (E : Type) : Type := {
  path : list node;
  dist : Q;
  steps : Z;
  cur : node;
  visited_edges : E;
  node_visits : gmap node Z
}.
Arguments path {E} _.
Arguments dist {E} _.
Arguments steps {E} _.
Arguments cur {E} _.
Arguments visited_edges {E} _.
Arguments node_visits {E} _.

(** What [random_loop] returns on success: [path, dist, score]. The
    failure value [None, 0, -math.inf] is the [None] of an [option]. *)
Record candidate : Type := {
  c_path : list node;
  c_dist : Q;
  c_score : Q
}.

(** The state of the loop of [find_top_loops]: the list [results] and the
    set [seen_hashes]. *)
Record search_state : Type := {
  results : list entry;
  seen_hashes : gset (list node)
}.

(** The short-loop scan shared by both scorers: the loop over
    [enumerate(path)] with its [last_seen] dictionary; [window] is the
    literal 20 or 30 of the script. *)
Fixpoint subloop_scan (window : Z) (i : Z) (last_seen : gmap node Z)
    (subloops : Z) (path : list node) : Z :=
  match path with
  | [] => subloops
  | node :: rest =>
      let subloops :=
        match last_seen !! node with
        | Some j => if decide (i - j < window) then subloops + 1 else subloops
        | None => subloops
        end in
      subloop_scan window (i + 1) (<[node := i]> last_seen) subloops rest
  end.

(* ===================================================================== *)
(** * [src/main.py] *)
(* ===================================================================== *)

Module Main.

Definition bad_tags : gset string :=
  {[ "steps"%string; "corridor"%string; "platform"%string ]}.

(** [d.get("length", 0) < 7]. *)
Definition short_edge (e : edge) : Prop :=
  (default 0%Q (d_length (e_d e)) < 7)%Q.

(** The test on [d.get("highway")]: any tag of a list, or the single tag,
    is in [bad_tags]; an absent attribute ([None]) is not. *)
Definition bad_highway (e : edge) : Prop :=
  match d_highway (e_d e) with
  | HwList highway => Exists (fun tag => tag ∈ bad_tags) highway
  | HwTag highway => highway ∈ bad_tags
  | HwAbsent => False
  end.

#[global] Instance bad_highway_dec e : Decision (bad_highway e).
Proof. unfold bad_highway. destruct (d_highway (e_d e)); apply _. Defined.

Definition preprocess_graph (G : graph) (mode : string) : graph :=
  let edges_to_remove := edge_id <$> filter short_edge (g_edges G) in
  let G := remove_edges_from G edges_to_remove in
  if decide (mode = "walk"%string) then
    let edges_to_remove := edge_id <$> filter bad_highway (g_edges G) in
    remove_edges_from G edges_to_remove
  else G.

Definition score_path (path : list node) (dist target_dist : Q) : Q :=
  let unique_nodes := Z.of_nat (len_set path) in
  let repeated := Z.of_nat (length path) - unique_nodes in
  let subloops := subloop_scan 20 0 ∅ 0 path in
  (- Qabs (dist - target_dist)
   + inject_Z (unique_nodes * 10)
   - inject_Z (repeated * 20)
   - inject_Z (subloops * 25))%Q.

Section Walk.

Variable great_circle : Q -> Q -> Q -> Q -> Q.
Variable rng : Type.
Variable shuffle : rng -> list node -> list node * rng.

Definition is_close_to_start (G : graph) (node start : node) (threshold_m : Q)
  : outcome bool :=
  obind (coords G node) (fun '(y1, x1) =>
  obind (coords G start) (fun '(y0, x0) =>
  let d := great_circle y1 x1 y0 x0 in
  Returned (bool_decide (d < threshold_m)%Q))).

Definition state : Type := walk_state (gset (node * node)).

Definition initial (start : node) : state :=
  {| path := [start]; dist := 0%Q; steps := 0; cur := start;
     visited_edges := ∅; node_visits := ∅ |}.

(** The [for neighbor in neighbors] loop: the state after the move to the
    first neighbour that passes the three tests, [None] when the loop ends
    with [moved] still [False]. *)
Fixpoint scan (G : graph) (st : state) (neighbors : list node) : option state :=
  match neighbors with
  | [] => None
  | neighbor :: rest =>
      if decide ((2 ≤ length (path st))%nat ∧ second_last (path st) = Some neighbor)
      then scan G st rest
      else if decide (3 ≤ default 0 (node_visits st !! neighbor))
      then scan G st rest
      else
        match edge_len G (cur st) neighbor with
        | None => scan G st rest
        | Some edge_len =>
            Some {| path := path st ++ [neighbor];
                    dist := (dist st + edge_len)%Q;
                    steps := steps st + 1;
                    cur := neighbor;
                    visited_edges := {[ (cur st, neighbor) ]} ∪ visited_edges st;
                    node_visits :=
                      <[neighbor := default 0 (node_visits st !! neighbor) + 1]>
                        (node_visits st) |}
        end
  end.

(** [(1 - margin) * target_dist <= dist <= (1 + margin) * target_dist]. *)
Definition in_band (margin target_dist dist : Q) : Prop :=
  ((1 - margin) * target_dist <= dist)%Q ∧ (dist <= (1 + margin) * target_dist)%Q.

(** The [while steps < max_steps] loop. Every iteration that does not leave
    the loop adds one to [steps], so [remaining] counts the iterations left:
    it is [max_steps - steps]. *)
Fixpoint walk (G : graph) (start : node) (target_dist margin : Q)
    (remaining : nat) (st : state) (g : rng) : outcome (option candidate) * rng :=
  match remaining with
  | O => (Returned None, g)
  | S remaining =>
      match successors G (cur st) with
      | Raised e => (Raised e, g)
      | Returned neighbors =>
          let '(neighbors, g) := shuffle g neighbors in
          match scan G st neighbors with
          | None => (Returned None, g)
          | Some st =>
              if decide (in_band margin target_dist (dist st)) then
                match is_close_to_start G (cur st) start 50 with
                | Raised e => (Raised e, g)
                | Returned true =>
                    let score := score_path (path st) (dist st) target_dist in
                    (Returned (Some {| c_path := path st; c_dist := dist st;
                                       c_score := score |}), g)
                | Returned false => walk G start target_dist margin remaining st g
                end
              else walk G start target_dist margin remaining st g
          end
      end
  end.

Definition random_loop (G : graph) (start : node) (target_dist margin : Q)
    (max_steps : Z) (attempt_id : Z) (g : rng) : outcome (option candidate) * rng :=
  walk G start target_dist margin (Z.to_nat max_steps) (initial start) g.

(** One iteration of [for i in range(1, attempts + 1)]; [max_steps] keeps
    its default, 120. *)
Definition attempt (G : graph) (start : node) (target_dist margin : Q)
    (i : Z) (s : search_state) (g : rng) : outcome search_state * rng :=
  match random_loop G start target_dist margin 120 i g with
  | (Raised e, g) => (Raised e, g)
  | (Returned None, g) => (Returned s, g)
  | (Returned (Some c), g) =>
      let h := path_hash (c_path c) in
      if decide (h ∉ seen_hashes s) then
        (Returned {| seen_hashes := {[ h ]} ∪ seen_hashes s;
                     results := results s ++
                       [{| r_score := c_score c; r_path := c_path c;
                           r_dist := c_dist c |}] |}, g)
      else (Returned s, g)
  end.

Fixpoint attempts_loop (G : graph) (start : node) (target_dist margin : Q)
    (ids : list Z) (s : search_state) (g : rng) : outcome search_state * rng :=
  match ids with
  | [] => (Returned s, g)
  | i :: ids =>
      match attempt G start target_dist margin i s g with
      | (Raised e, g) => (Raised e, g)
      | (Returned s, g) => attempts_loop G start target_dist margin ids s g
      end
  end.

Definition find_top_loops (G : graph) (start : node) (target_dist margin : Q)
    (attempts top_k : Z) (g : rng) : outcome (list entry) * rng :=
  match attempts_loop G start target_dist margin (range1 attempts)
          {| results := []; seen_hashes := ∅ |} g with
  | (Raised e, g) => (Raised e, g)
  | (Returned s, g) => (Returned (slice_to (sort_reverse (results s)) top_k), g)
  end.

End Walk.

End Main.

(* ===================================================================== *)
(** * [src/main copy.py] *)
(* ===================================================================== *)

Module MainCopy.

Definition bad_highway_tags : gset string :=
  {[ "steps"%string; "corridor"%string; "escalator"%string;
     "elevator"%string; "platform"%string; "raceway"%string;
     "proposed"%string; "construction"%string; "service"%string;
     "footway"%string ]}.

(** The test on [d.get("highway", None)]. *)
Definition bad_highway (e : edge) : Prop :=
  match d_highway (e_d e) with
  | HwList highway => Exists (fun tag => tag ∈ bad_highway_tags) highway
  | HwTag highway => highway ∈ bad_highway_tags
  | HwAbsent => False
  end.

#[global] Instance bad_highway_dec e : Decision (bad_highway e).
Proof. unfold bad_highway. destruct (d_highway (e_d e)); apply _. Defined.

(** [d.get("length", 0) < 5]. *)
Definition short_edge (e : edge) : Prop :=
  (default 0%Q (d_length (e_d e)) < 5)%Q.

(** The body of the loop over the edges: what one edge appends to
    [edges_to_remove] (an edge both bad and short is appended twice). *)
Definition to_remove (e : edge) : list (node * node * Z) :=
  (if decide (bad_highway e) then [edge_id e] else [])
  ++ (if decide (short_edge e) then [edge_id e] else []).

Definition preprocess_walk_graph (G : graph) : graph :=
  let edges_to_remove := g_edges G ≫= to_remove in
  let G := remove_edges_from G edges_to_remove in
  remove_nodes_from G (isolates G).

(** [tuple(sorted((node, neighbor)))]. *)
Definition edge_key (u v : node) : node * node :=
  (Z.min u v, Z.max u v).

(** [sum(1 for e, count in visited_edges.items() if count > 1)]. *)
Definition repeated_edges (visited_edges : gmap (node * node) Z) : Z :=
  Z.of_nat (length (filter (fun ec => 1 < ec.2) (map_to_list visited_edges))).

Definition score_path (path : list node) (dist target_dist : Q)
    (visited_edges : gmap (node * node) Z) : Q :=
  let unique_nodes := Z.of_nat (len_set path) in
  let repeated_nodes := Z.of_nat (length path) - unique_nodes in
  let subloops := subloop_scan 30 0 ∅ 0 path in
  let repeated_edges := repeated_edges visited_edges in
  (- Qabs (dist - target_dist)
   + inject_Z (unique_nodes * 10)
   - inject_Z (repeated_nodes * 40)
   - inject_Z (subloops * 30)
   - inject_Z (repeated_edges * 20))%Q.

Section Walk.

Variable great_circle : Q -> Q -> Q -> Q -> Q.
Variable rng : Type.
Variable shuffle : rng -> list node -> list node * rng.

Definition is_close_to_start (G : graph) (node start : node) (threshold_m : Q)
  : outcome bool :=
  obind (coords G node) (fun '(y1, x1) =>
  obind (coords G start) (fun '(y0, x0) =>
  let d := great_circle y1 x1 y0 x0 in
  Returned (bool_decide (d < threshold_m)%Q))).

Definition state : Type := walk_state (gmap (node * node) Z).

Definition initial (start : node) : state :=
  {| path := [start]; dist := 0%Q; steps := 0; cur := start;
     visited_edges := ∅; node_visits := ∅ |}.

(** The [for neighbor in neighbors] loop. *)
Fixpoint scan (G : graph) (st : state) (neighbors : list node) : option state :=
  match neighbors with
  | [] => None
  | neighbor :: rest =>
      if decide ((2 ≤ length (path st))%nat ∧ second_last (path st) = Some neighbor)
      then scan G st rest
      else if decide (3 ≤ default 0 (node_visits st !! neighbor))
      then scan G st rest
      else
        match edge_len G (cur st) neighbor with
        | None => scan G st rest
        | Some edge_len =>
            let edge_key := edge_key (cur st) neighbor in
            Some {| path := path st ++ [neighbor];
                    dist := (dist st + edge_len)%Q;
                    steps := steps st + 1;
                    cur := neighbor;
                    visited_edges :=
                      <[edge_key := default 0 (visited_edges st !! edge_key) + 1]>
                        (visited_edges st);
                    node_visits :=
                      <[neighbor := default 0 (node_visits st !! neighbor) + 1]>
                        (node_visits st) |}
        end
  end.

(** The [while steps < max_steps] loop; [remaining] is
    [max_steps - steps]. The closing test is
    [dist >= (1 - margin) * target_dist and is_close_to_start(G, node, start)],
    with the default threshold, 100. *)
Fixpoint walk (G : graph) (start : node) (target_dist margin : Q)
    (remaining : nat) (st : state) (g : rng) : outcome (option candidate) * rng :=
  match remaining with
  | O => (Returned None, g)
  | S remaining =>
      match successors G (cur st) with
      | Raised e => (Raised e, g)
      | Returned neighbors =>
          let '(neighbors, g) := shuffle g neighbors in
          match scan G st neighbors with
          | None => (Returned None, g)
          | Some st =>
              if decide ((1 - margin) * target_dist <= dist st)%Q then
                match is_close_to_start G (cur st) start 100 with
                | Raised e => (Raised e, g)
                | Returned true =>
                    let score :=
                      score_path (path st) (dist st) target_dist (visited_edges st) in
                    (Returned (Some {| c_path := path st; c_dist := dist st;
                                       c_score := score |}), g)
                | Returned false => walk G start target_dist margin remaining st g
                end
              else walk G start target_dist margin remaining st g
          end
      end
  end.

Definition random_loop (G : graph) (start : node) (target_dist margin : Q)
    (max_steps : Z) (attempt_id : Z) (g : rng) : outcome (option candidate) * rng :=
  walk G start target_dist margin (Z.to_nat max_steps) (initial start) g.

(** One iteration of [for i in range(1, attempts + 1)]; [max_steps] keeps
    its default, 200. *)
Definition attempt (G : graph) (start : node) (target_dist margin : Q)
    (i : Z) (s : search_state) (g : rng) : outcome search_state * rng :=
  match random_loop G start target_dist margin 200 i g with
  | (Raised e, g) => (Raised e, g)
  | (Returned None, g) => (Returned s, g)
  | (Returned (Some c), g) =>
      let h := path_hash (c_path c) in
      if decide (h ∉ seen_hashes s) then
        (Returned {| seen_hashes := {[ h ]} ∪ seen_hashes s;
                     results := results s ++
                       [{| r_score := c_score c; r_path := c_path c;
                           r_dist := c_dist c |}] |}, g)
      else (Returned s, g)
  end.

Fixpoint attempts_loop (G : graph) (start : node) (target_dist margin : Q)
    (ids : list Z) (s : search_state) (g : rng) : outcome search_state * rng :=
  match ids with
  | [] => (Returned s, g)
  | i :: ids =>
      match attempt G start target_dist margin i s g with
      | (Raised e, g) => (Raised e, g)
      | (Returned s, g) => attempts_loop G start target_dist margin ids s g
      end
  end.

Definition find_top_loops (G : graph) (start : node) (target_dist margin : Q)
    (attempts top_k : Z) (g : rng) : outcome (list entry) * rng :=
  match attempts_loop G start target_dist margin (range1 attempts)
          {| results := []; seen_hashes := ∅ |} g with
  | (Raised e, g) => (Raised e, g)
  | (Returned s, g) => (Returned (slice_to (sort_reverse (results s)) top_k), g)
  end.

End Walk.

End MainCopy.

(* ===================================================================== *)
(** * Example graphs and collaborators *)
(* ===================================================================== *)

Module Examples.

(** A planar stand-in for the distance collaborator, on projected
    coordinates in metres. *)
Definition planar_distance (y1 x1 y0 x0 : Q) : Q :=
  (Qabs (y1 - y0) + Qabs (x1 - x0))%Q.

(** A generator whose shuffle leaves the list as it is and counts the
    draws. *)
Definition keep_order (g : nat) (l : list node) : list node * nat := (l, S g).

Definition street (u v : node) (length : option Q) : edge :=
  {| e_u := u; e_v := v; e_k := 0;
     e_d := {| d_length := length; d_highway := HwAbsent |} |}.

(** Two nodes joined by one street of 3 m. *)
Definition short_street : graph :=
  {| g_nodes := list_to_map [(1, (0%Q, 0%Q)); (2, (3%Q, 0%Q))];
     g_edges := [street 1 2 (Some 3%Q)] |}.

(** A one-way triangle 1 -> 2 -> 3 -> 1 with sides of [side] metres (or no
    length attribute), its corners a kilometre apart. *)
Definition triangle (side : option Q) : graph :=
  {| g_nodes := list_to_map [(1, (0%Q, 0%Q)); (2, (1000%Q, 0%Q)); (3, (0%Q, 1000%Q))];
     g_edges := [street 1 2 side; street 2 3 side; street 3 1 side] |}.

(** A generator whose shuffle reverses the list at every odd draw. *)
Definition alternate (g : nat) (l : list node) : list node * nat :=
  (if Nat.even g then l else reverse l, S g).

(** Two one-way triangles 1 -> 2 -> 3 -> 1 and 1 -> 4 -> 5 -> 1 that share
    the corner 1, with sides of 100 m. *)
Definition two_triangles : graph :=
  {| g_nodes := list_to_map [(1, (0%Q, 0%Q)); (2, (1000%Q, 0%Q)); (3, (0%Q, 1000%Q));
                             (4, ((-1000)%Q, 0%Q)); (5, (0%Q, (-1000)%Q))];
     g_edges := [street 1 2 (Some 100%Q); street 2 3 (Some 100%Q);
                 street 3 1 (Some 100%Q); street 1 4 (Some 100%Q);
                 street 4 5 (Some 100%Q); street 5 1 (Some 100%Q)] |}.

(** Paths on the triangle: one round, three rounds, and a path that goes
    to and fro along one street. *)
Definition one_round : list node := [1; 2; 3; 1].
Definition three_rounds : list node := [1; 2; 3; 1; 2; 3; 1; 2; 3; 1].
Definition to_and_fro : list node := [1; 2; 1; 2].

End Examples.

(* ===================================================================== *)
(** * The moves of a walk and what they preserve *)
(* ===================================================================== *)

(** [path.count(n)]. *)
Definition occurrences (n : node) (path : list node) : nat :=
  length (filter (fun x => x = n) path).

(** No node of the path is the node two places before it. *)
Definition no_backtrack (path : list node) : Prop :=
  forall (i : nat) (x y : node),
    path !! i = Some x -> path !! (i + 2)%nat = Some y -> x ≠ y.

Section Moves.

Context {E : Type}.

(** One move of a walk, from [st] to [st'], to [neighbor] along an edge of
    length [l]: the three tests of the inner loop passed, and the fields
    that both scripts update the same way. *)
Record move (G : graph) (st st' : walk_state E) (neighbor : node) (l : Q)
  : Prop := {
  move_back :
    ¬ ((2 ≤ length (path st))%nat ∧ second_last (path st) = Some neighbor);
  move_cap : ¬ (3 ≤ default 0 (node_visits st !! neighbor));
  move_edge : edge_len G (cur st) neighbor = Some l;
  move_path : path st' = path st ++ [neighbor];
  move_dist : dist st' = (dist st + l)%Q;
  move_steps : steps st' = steps st + 1;
  move_cur : cur st' = neighbor;
  move_visits :
    node_visits st' =
    <[neighbor := default 0 (node_visits st !! neighbor) + 1]> (node_visits st)
}.

(** The invariant of the [while] loop. *)
Record walk_inv (start : node) (st : walk_state E) : Prop := {
  inv_steps : Z.of_nat (length (path st)) = steps st + 1;
  inv_head : head (path st) = Some start;
  inv_last : last (path st) = Some (cur st);
  inv_back : no_backtrack (path st);
  inv_count : forall n,
    Z.of_nat (occurrences n (path st)) =
    default 0 (node_visits st !! n) + (if decide (n = start) then 1 else 0);
  inv_cap : forall n, default 0 (node_visits st !! n) ≤ 3
}.

End Moves.

(** The traversals of a path: its pairs of consecutive nodes. *)
Definition traversals (path : list node) : list (node * node) :=
  zip path (tail path).

(** The tally of the traversals of a path by unordered pair of ends: what
    [visited_edges] of [main copy.py] holds after the walk along [path]. *)
Definition edge_tally (path : list node) : gmap (node * node) Z :=
  foldl (fun tally uv =>
           let k := MainCopy.edge_key uv.1 uv.2 in
           <[k := default 0 (tally !! k) + 1]> tally)
        ∅ (traversals path).

(** The score as the specification words it: the sum of the closeness
    term, the reward for distinct nodes and the penalties for repeated
    nodes, short subloops and edges traversed more than once, with the
    weights and the subloop window as parameters. *)
Definition component_sum (w_unique w_repeat w_subloop w_edge_repeat window : Z)
    (path : list node) (dist target_dist : Q)
    (tally : gmap (node * node) Z) : Q :=
  let unique_nodes := Z.of_nat (len_set path) in
  let repeated_nodes := Z.of_nat (length path) - unique_nodes in
  let subloops := subloop_scan window 0 ∅ 0 path in
  let repeated_edges := MainCopy.repeated_edges tally in
  (- Qabs (dist - target_dist)
   + inject_Z (unique_nodes * w_unique)
   - inject_Z (repeated_nodes * w_repeat)
   - inject_Z (subloops * w_subloop)
   - inject_Z (repeated_edges * w_edge_repeat))%Q.

(** The LoopKey of a path: the set of its nodes. *)
Definition loop_key (path : list node) : gset node := list_to_set path.

(** A script is said to reject a configuration eagerly when it raises an
    exception and leaves the random generator as it found it: no walk has
    drawn from it. *)
Definition rejects_eagerly {rng A : Type} (call : rng -> outcome A * rng) : Prop :=
  forall g, exists e, call g = (Raised e, g).

Section Search.

Context {rng : Type}.
Variable run : Z -> rng -> outcome (option candidate) * rng.

(** What the loop of [find_top_loops] does with a candidate. *)
Definition keep (c : candidate) (s : search_state) : search_state :=
  let h := path_hash (c_path c) in
  if decide (h ∉ seen_hashes s) then
    {| seen_hashes := {[ h ]} ∪ seen_hashes s;
       results := results s ++
         [{| r_score := c_score c; r_path := c_path c; r_dist := c_dist c |}] |}
  else s.

(** The loop of [find_top_loops] over the attempts [ids], for any
    [random_loop] with its arguments but the last two. *)
Fixpoint search_loop (ids : list Z) (s : search_state) (g : rng)
  : outcome search_state * rng :=
  match ids with
  | [] => (Returned s, g)
  | i :: ids =>
      match run i g with
      | (Raised e, g) => (Raised e, g)
      | (Returned None, g) => search_loop ids s g
      | (Returned (Some c), g) => search_loop ids (keep c s) g
      end
  end.

(** The candidates that the attempts [ids] return, in order. *)
Fixpoint successes (ids : list Z) (g : rng) : list candidate :=
  match ids with
  | [] => []
  | i :: ids =>
      match run i g with
      | (Raised e, g) => []
      | (Returned None, g) => successes ids g
      | (Returned (Some c), g) => c :: successes ids g
      end
  end.

End Search.

(** The number of distinct LoopKeys among candidates. *)
Definition distinct_keys (cs : list candidate) : nat :=
  size (list_to_set ((fun c => loop_key (c_path c)) <$> cs) : gset (gset node)).

(** [a] may stand before [b] in a list sorted greatest first. *)
Definition precedes (a b : entry) : Prop := entry_compare a b ≠ Lt.

(** The invariant of the loop of [find_top_loops]; [K] holds the LoopKeys
    of the candidates met so far. *)
Record search_inv (K : gset (gset node)) (s : search_state) : Prop := {
  si_seen : forall r, r ∈ results s -> path_hash (r_path r) ∈ seen_hashes s;
  si_nodup : NoDup ((fun r => loop_key (r_path r)) <$> results s);
  si_from : forall r, r ∈ results s -> loop_key (r_path r) ∈ K
}.

(** A ResultSet [rs] for [top_k], given the candidates [cs] of the search:
    at most [min top_k (distinct LoopKeys of cs)] entries, scores that do
    not increase, LoopKeys that differ two by two. *)
Definition result_set (top_k : Z) (cs : list candidate) (rs : list entry) : Prop :=
  Z.of_nat (length rs) ≤ Z.min top_k (Z.of_nat (distinct_keys cs))
  ∧ (forall (i j : nat) a b,
       (i ≤ j)%nat -> rs !! i = Some a -> rs !! j = Some b ->
       (r_score b <= r_score a)%Q)
  ∧ (forall (i j : nat) a b,
       i ≠ j -> rs !! i = Some a -> rs !! j = Some b ->
       loop_key (r_path a) ≠ loop_key (r_path b)).

(** A list of loops [rs], given the candidates [cs] of the search: no more
    entries than [cs] has distinct LoopKeys, scores that do not increase,
    LoopKeys that differ two by two. *)
Definition loop_list (cs : list candidate) (rs : list entry) : Prop :=
  (length rs ≤ distinct_keys cs)%nat
  ∧ (forall (i j : nat) a b,
       (i ≤ j)%nat -> rs !! i = Some a -> rs !! j = Some b ->
       (r_score b <= r_score a)%Q)
  ∧ (forall (i j : nat) a b,
       i ≠ j -> rs !! i = Some a -> rs !! j = Some b ->
       loop_key (r_path a) ≠ loop_key (r_path b)).

(* ===================================================================== *)
(** * Further notions *)
(* ===================================================================== *)

(** The ends of every edge are nodes of the graph, as [networkx] keeps
    it. *)
Definition well_formed (G : graph) : Prop :=
  Forall (fun e => is_Some (g_nodes G !! e_u e) ∧ is_Some (g_nodes G !! e_v e))
    (g_edges G).

(** No two edges share their name [(u, v, key)], as [networkx] keeps it. *)
Definition unique_edge_ids (G : graph) : Prop :=
  NoDup (edge_id <$> g_edges G).

(** Every two consecutive nodes of the path are the ends of an edge of the
    graph, taken from its tail to its head. *)
Definition follows_edges (G : graph) (path : list node) : Prop :=
  forall (i : nat) (u v : node),
    path !! i = Some u -> path !! (i + 1)%nat = Some v ->
    exists e, e ∈ g_edges G ∧ e_u e = u ∧ e_v e = v.

(** The length of a path as [random_loop] measures it: for every traversal
    the length of the first parallel edge, 1 when it has none. *)
Definition path_length (G : graph) (path : list node) : Q :=
  foldr Qplus 0%Q ((fun uv => default 0%Q (edge_len G uv.1 uv.2)) <$> traversals path).

(** A shuffle returns a permutation of its argument. *)
Definition permutes {rng : Type} (shuffle : rng -> list node -> list node * rng) : Prop :=
  forall g l, (shuffle g l).1 ≡ₚ l.

(** The entry of [results] made of a candidate. *)
Definition entry_of (c : candidate) : entry :=
  {| r_score := c_score c; r_path := c_path c; r_dist := c_dist c |}.

(** The candidates that are the first of their LoopKey, the keys of [seen]
    being taken already. *)
Fixpoint first_by_key (seen : list (gset node)) (cs : list candidate)
  : list candidate :=
  match cs with
  | [] => []
  | c :: cs =>
      if decide (loop_key (c_path c) ∈ seen) then first_by_key seen cs
      else c :: first_by_key (loop_key (c_path c) :: seen) cs
  end.

Section WalkAlong.

Context {E : Type}.

(** What a walk keeps beyond [walk_inv]: the path follows edges of the
    graph and [dist] is its length. *)
Record walk_along (G : graph) (start : node) (st : walk_state E) : Prop := {
  along_inv : walk_inv start st;
  along_edges : follows_edges G (path st);
  along_dist : (dist st == path_length G (path st))%Q;
  along_node : is_Some (g_nodes G !! start) -> well_formed G ->
               is_Some (g_nodes G !! cur st)
}.

End WalkAlong.

(** The entries that a search retains: one for the first candidate of
    every LoopKey, in the order of the attempts. *)
Definition retained (cs : list candidate) : list entry :=
  entry_of <$> first_by_key [] cs.

Section Searched.

Variable great_circle : Q -> Q -> Q -> Q -> Q.
Variable rng : Type.
Variable shuffle : rng -> list node -> list node * rng.

(** [run] is the [random_loop] of one of the scripts, with the arguments
    and the default [max_steps] that its [find_top_loops] passes, and [rs]
    is what that [find_top_loops] returns. *)
Definition searched (G : graph) (start : node) (target_dist margin : Q)
    (attempts top_k : Z) (g : rng)
    (run : Z -> rng -> outcome (option candidate) * rng)
    (rs : list entry) (g' : rng) : Prop :=
  (run = Main.random_loop great_circle rng shuffle G start target_dist margin 120
   ∧ Main.find_top_loops great_circle rng shuffle G start target_dist margin
       attempts top_k g = (Returned rs, g'))
  ∨ (run = MainCopy.random_loop great_circle rng shuffle G start target_dist margin 200
     ∧ MainCopy.find_top_loops great_circle rng shuffle G start target_dist margin
         attempts top_k g = (Returned rs, g')).

End Searched.

Module SearchExamples.

(** The [random_loop] of [main.py] as its [find_top_loops] calls it on the
    two triangles, for loops of 300 m. *)
Definition run : Z -> nat -> outcome (option candidate) * nat :=
  Main.random_loop Examples.planar_distance nat Examples.alternate
    Examples.two_triangles 1 300%Q (1#10)%Q 120.

Definition left_round : entry :=
  {| r_score := (-15)%Q; r_path := [1; 4; 5; 1]; r_dist := 300%Q |}.

Definition right_round : entry :=
  {| r_score := (-15)%Q; r_path := Examples.one_round; r_dist := 300%Q |}.

End SearchExamples.

(** The walk, after the [k] first nodes of [path], is never at a node [n]
    and a distance [d] for which [closes d n] holds: no loop shorter than
    the path would have been returned. *)
Definition never_closed (closes : Q -> node -> Prop) (G : graph)
    (path : list node) (bound : nat) : Prop :=
  forall (k : nat) (n : node),
    (2 ≤ k ≤ bound)%nat -> path !! (k - 1)%nat = Some n ->
    ¬ closes (path_length G (take k path)) n.

(** The closing tests of the two scripts, at distance [d] and node [n]. *)
Definition main_closes (great_circle : Q -> Q -> Q -> Q -> Q) (G : graph)
    (start : node) (target_dist margin : Q) (d : Q) (n : node) : Prop :=
  Main.in_band margin target_dist d
  ∧ Main.is_close_to_start great_circle G n start 50 = Returned true.

Definition copy_closes (great_circle : Q -> Q -> Q -> Q -> Q) (G : graph)
    (start : node) (target_dist margin : Q) (d : Q) (n : node) : Prop :=
  ((1 - margin) * target_dist <= d)%Q
  ∧ MainCopy.is_close_to_start great_circle G n start 100 = Returned true.

(* ===================================================================== *)
(** * Graph preprocessing *)
(* ===================================================================== *)

Section Removal.

Context {A : Type} (P : A -> Prop) `{!forall x, Decision (P x)}.

Lemma filter_none (l : list A) :
  Forall (fun x => ¬ P x) l -> filter P l = [].
Proof.
  induction 1 as [|x l Hx _ IH]; [reflexivity|].
  rewrite filter_cons_False by exact Hx. exact IH.
Qed.

Lemma filter_all (l : list A) :
  Forall P l -> filter P l = l.
Proof.
  induction 1 as [|x l Hx _ IH]; [reflexivity|].
  rewrite filter_cons_True by exact Hx. by rewrite IH.
Qed.

End Removal.

Lemma remove_edges_from_nil G : remove_edges_from G [] = G.
Proof.
  destruct G as [ns es]. unfold remove_edges_from; simpl. f_equal.
  apply filter_all, Forall_forall. intros e _. apply not_elem_of_nil.
Qed.

Lemma remove_nodes_from_nil G : remove_nodes_from G [] = G.
Proof.
  destruct G as [ns es]. unfold remove_nodes_from; simpl. f_equal.
  - apply map_filter_id. intros i x _. apply not_elem_of_nil.
  - apply filter_all, Forall_forall. intros e _. split; apply not_elem_of_nil.
Qed.

(** Removing the edges selected by [P] leaves no edge selected by [P]. *)
Lemma remove_edges_from_clears (P : edge -> Prop) G ebunch :
  (forall e, e ∈ g_edges G -> P e -> edge_id e ∈ ebunch) ->
  Forall (fun e => ¬ P e) (g_edges (remove_edges_from G ebunch)).
Proof.
  intros Hsel. apply Forall_forall. intros e He HP. simpl in He.
  apply list_elem_of_filter in He as [Hnot Hin]. apply Hnot. by apply Hsel.
Qed.

Lemma remove_edges_from_subset G ebunch e :
  e ∈ g_edges (remove_edges_from G ebunch) -> e ∈ g_edges G.
Proof. simpl. intros He. by apply list_elem_of_filter in He as [_ ?]. Qed.

(** An end of an edge of the graph is not one of its isolates. *)
Lemma incident_not_isolate G n e :
  e ∈ g_edges G -> incident n e -> n ∉ isolates G.
Proof.
  intros He Hinc Hiso. unfold isolates in Hiso.
  apply list_elem_of_filter in Hiso as [Hiso _].
  unfold is_isolate in Hiso. rewrite Forall_forall in Hiso. by apply (Hiso e).
Qed.

(** Removing the isolates removes no edge. *)
Lemma remove_isolates_edges G :
  g_edges (remove_nodes_from G (isolates G)) = g_edges G.
Proof.
  simpl. apply filter_all, Forall_forall. intros e He.
  split; eapply incident_not_isolate; eauto; [by left | by right].
Qed.

Lemma remove_isolates_nodes G n :
  is_Some (g_nodes (remove_nodes_from G (isolates G)) !! n) ->
  is_Some (g_nodes G !! n) ∧ ¬ is_isolate G n.
Proof.
  simpl. intros [yx Hn]. apply map_lookup_filter_Some in Hn as [Hn Hnot].
  simpl in Hnot. split; [by eexists|]. intros Hiso. apply Hnot.
  unfold isolates. apply list_elem_of_filter. split; [exact Hiso|].
  apply elem_of_elements, elem_of_dom. by eexists.
Qed.

(** After the isolates are removed there is none left. *)
Lemma remove_isolates_none G :
  isolates (remove_nodes_from G (isolates G)) = [].
Proof.
  apply filter_none, Forall_forall. intros n Hn.
  apply elem_of_elements, elem_of_dom in Hn.
  apply remove_isolates_nodes in Hn as [_ Hn].
  unfold is_isolate in *. by rewrite remove_isolates_edges.
Qed.

Lemma main_short_selected G e :
  e ∈ g_edges G -> Main.short_edge e ->
  edge_id e ∈ edge_id <$> filter Main.short_edge (g_edges G).
Proof.
  intros He Hs. apply list_elem_of_fmap. exists e. split; [done|].
  by apply list_elem_of_filter.
Qed.

Lemma main_bad_selected G e :
  e ∈ g_edges G -> Main.bad_highway e ->
  edge_id e ∈ edge_id <$> filter Main.bad_highway (g_edges G).
Proof.
  intros He Hs. apply list_elem_of_fmap. exists e. split; [done|].
  by apply list_elem_of_filter.
Qed.

(** What [preprocess_graph] leaves: no short edge, and in mode ["walk"] no
    edge of a bad type. *)
Lemma main_preprocess_graph_edges G mode :
  Forall (fun e => ¬ Main.short_edge e) (g_edges (Main.preprocess_graph G mode))
  ∧ (mode = "walk"%string ->
     Forall (fun e => ¬ Main.bad_highway e) (g_edges (Main.preprocess_graph G mode))).
Proof.
  unfold Main.preprocess_graph.
  set (G1 := remove_edges_from G _).
  assert (H1 : Forall (fun e => ¬ Main.short_edge e) (g_edges G1)).
  { apply remove_edges_from_clears. intros e. apply main_short_selected. }
  destruct (decide (mode = "walk"%string)) as [Hw|Hw].
  - split.
    + apply Forall_forall. intros e He. apply remove_edges_from_subset in He.
      rewrite Forall_forall in H1. by apply H1.
    + intros _. apply remove_edges_from_clears. intros e. apply main_bad_selected.
  - split; [exact H1 | done].
Qed.

Lemma main_preprocess_graph_fixpoint G mode :
  Forall (fun e => ¬ Main.short_edge e) (g_edges G) ->
  (mode = "walk"%string -> Forall (fun e => ¬ Main.bad_highway e) (g_edges G)) ->
  Main.preprocess_graph G mode = G.
Proof.
  intros Hs Hb. unfold Main.preprocess_graph.
  rewrite (filter_none _ _ Hs), fmap_nil, remove_edges_from_nil.
  destruct (decide (mode = "walk"%string)) as [Hw|Hw]; [|done].
  rewrite (filter_none _ _ (Hb Hw)), fmap_nil. apply remove_edges_from_nil.
Qed.

(** [preprocess_graph] removes edges only: the node table is untouched. *)
Lemma main_preprocess_graph_nodes G mode :
  g_nodes (Main.preprocess_graph G mode) = g_nodes G.
Proof. unfold Main.preprocess_graph. by destruct (decide _). Qed.

Lemma copy_selected G e :
  e ∈ g_edges G -> MainCopy.bad_highway e ∨ MainCopy.short_edge e ->
  edge_id e ∈ g_edges G ≫= MainCopy.to_remove.
Proof.
  intros He Hs. apply list_elem_of_bind. exists e. split; [|done].
  unfold MainCopy.to_remove. apply elem_of_app.
  destruct Hs as [Hs|Hs]; [left|right]; rewrite decide_True by done;
    apply list_elem_of_singleton; done.
Qed.

Lemma copy_to_remove_none (l : list edge) :
  Forall (fun e => ¬ (MainCopy.bad_highway e ∨ MainCopy.short_edge e)) l ->
  l ≫= MainCopy.to_remove = [].
Proof.
  induction 1 as [|e l He _ IH]; [reflexivity|].
  rewrite bind_cons, IH. unfold MainCopy.to_remove.
  rewrite !decide_False by tauto. reflexivity.
Qed.

(** No isolate is left by [preprocess_walk_graph]. *)
Lemma copy_preprocess_walk_graph_no_isolates G :
  isolates (MainCopy.preprocess_walk_graph G) = [].
Proof. unfold MainCopy.preprocess_walk_graph. apply remove_isolates_none. Qed.

(** Every node kept by [preprocess_walk_graph] is an end of an edge that it
    kept. *)
Lemma copy_preprocess_walk_graph_incident G n :
  is_Some (g_nodes (MainCopy.preprocess_walk_graph G) !! n) ->
  exists e, e ∈ g_edges (MainCopy.preprocess_walk_graph G) ∧ incident n e.
Proof.
  unfold MainCopy.preprocess_walk_graph. intros Hn.
  apply remove_isolates_nodes in Hn as [_ Hn]. rewrite remove_isolates_edges.
  unfold is_isolate in Hn. apply not_Forall_Exists in Hn; [|apply _].
  apply Exists_exists in Hn as (e & He & Hinc). exists e. split; [done|].
  by apply dec_stable.
Qed.

(** C7. Cleaning is idempotent: in both scripts, cleaning a cleaned graph
    returns it unchanged, [clean (clean G m) m = clean G m]. *)
Theorem clean_idempotent :
  (forall G mode,
     Main.preprocess_graph (Main.preprocess_graph G mode) mode
     = Main.preprocess_graph G mode)
  ∧ (forall G,
       MainCopy.preprocess_walk_graph (MainCopy.preprocess_walk_graph G)
       = MainCopy.preprocess_walk_graph G).
Proof.
  split.
  - intros G mode. destruct (main_preprocess_graph_edges G mode) as [Hs Hb].
    by apply main_preprocess_graph_fixpoint.
  - intros G. unfold MainCopy.preprocess_walk_graph at 1.
    set (G2 := MainCopy.preprocess_walk_graph G).
    assert (Hnone : g_edges G2 ≫= MainCopy.to_remove = []).
    { apply copy_to_remove_none. unfold G2, MainCopy.preprocess_walk_graph.
      rewrite remove_isolates_edges.
      apply remove_edges_from_clears. intros e. apply copy_selected. }
    rewrite Hnone, remove_edges_from_nil.
    unfold G2. rewrite copy_preprocess_walk_graph_no_isolates.
    apply remove_nodes_from_nil.
Qed.

(** C4, on [main.py]: [preprocess_graph] removes the 3 m street and keeps
    both of its ends, which are then isolated. *)
Theorem main_preprocess_graph_keeps_isolates :
  let G := Main.preprocess_graph Examples.short_street "bike" in
  g_edges G = []
  ∧ g_nodes G !! 1 = Some (0%Q, 0%Q) ∧ is_isolate G 1
  ∧ g_nodes G !! 2 = Some (3%Q, 0%Q) ∧ is_isolate G 2.
Proof.
  assert (He : g_edges (Main.preprocess_graph Examples.short_street "bike") = [])
    by (vm_compute; reflexivity).
  cbv zeta. unfold is_isolate. rewrite He.
  repeat split; try apply Forall_nil_2; vm_compute; reflexivity.
Qed.

(* ===================================================================== *)
(** * The walk *)
(* ===================================================================== *)

Lemma occurrences_snoc n path x :
  occurrences n (path ++ [x]) =
  (occurrences n path + (if decide (x = n) then 1 else 0))%nat.
Proof.
  unfold occurrences. rewrite filter_app, length_app. f_equal.
  destruct (decide (x = n)) as [Hx|Hx].
  - by rewrite filter_cons_True.
  - by rewrite filter_cons_False.
Qed.

Lemma no_backtrack_snoc path x :
  no_backtrack path ->
  ¬ ((2 ≤ length path)%nat ∧ second_last path = Some x) ->
  no_backtrack (path ++ [x]).
Proof.
  intros Hnb Hguard i a b Ha Hb.
  assert (Hlen : (i + 2 < length (path ++ [x]))%nat) by (eapply lookup_lt_Some; eauto).
  rewrite length_app in Hlen; simpl in Hlen.
  destruct (decide (i + 2 < length path)%nat) as [Hlt|Hge].
  - rewrite lookup_app_l in Ha by lia. rewrite lookup_app_l in Hb by lia.
    by eapply Hnb.
  - assert (Hi : (i + 2)%nat = length path) by lia.
    rewrite lookup_app_l in Ha by lia.
    rewrite lookup_app_r in Hb by lia.
    replace (i + 2 - length path)%nat with 0%nat in Hb by lia.
    simpl in Hb. injection Hb as <-. intros ->. apply Hguard.
    split; [lia|]. unfold second_last.
    replace (length path - 2)%nat with i by lia. exact Ha.
Qed.

Section MoveFacts.

Context {E : Type}.
Implicit Types st : walk_state E.

Lemma move_preserves_inv G start st st' neighbor l :
  walk_inv start st -> move G st st' neighbor l -> walk_inv start st'.
Proof.
  intros [Hsteps Hhead Hlast Hback Hcount Hcap] [Hb Hc _ Hp _ Hs Hcur Hv].
  split.
  - rewrite Hp, Hs, length_app. simpl. lia.
  - rewrite Hp. destruct (path st); [discriminate Hhead | exact Hhead].
  - rewrite Hp, Hcur. apply last_snoc.
  - rewrite Hp. by apply no_backtrack_snoc.
  - intros n. rewrite Hp, Hv, occurrences_snoc, Nat2Z.inj_add, Hcount.
    destruct (decide (neighbor = n)) as [->|Hne].
    + rewrite lookup_insert_eq. simpl. lia.
    + rewrite lookup_insert_ne by done. simpl. lia.
  - intros n. rewrite Hv. destruct (decide (neighbor = n)) as [->|Hne].
    + rewrite lookup_insert_eq. simpl. lia.
    + rewrite lookup_insert_ne by done. apply Hcap.
Qed.

(** Under the invariant a node other than [start] occurs at most three
    times, [start] at most four times. *)
Lemma inv_occurrences start st n :
  walk_inv start st ->
  (occurrences n (path st) ≤ (if decide (n = start) then 4 else 3))%nat.
Proof.
  intros Hinv. pose proof (inv_count _ _ Hinv n) as Hc.
  pose proof (inv_cap _ _ Hinv n) as Hn.
  destruct (decide (n = start)); lia.
Qed.

End MoveFacts.

Lemma main_initial_inv start : walk_inv start (Main.initial start).
Proof.
  split; try done.
  - intros i x y Hx Hy. apply lookup_lt_Some in Hy. simpl in Hy. lia.
  - intros n. unfold occurrences. simpl. rewrite lookup_empty. simpl.
    destruct (decide (n = start)) as [->|Hne].
    + by rewrite filter_cons_True.
    + by rewrite filter_cons_False.
Qed.

Lemma copy_initial_inv start : walk_inv start (MainCopy.initial start).
Proof.
  split; try done.
  - intros i x y Hx Hy. apply lookup_lt_Some in Hy. simpl in Hy. lia.
  - intros n. unfold occurrences. simpl. rewrite lookup_empty. simpl.
    destruct (decide (n = start)) as [->|Hne].
    + by rewrite filter_cons_True.
    + by rewrite filter_cons_False.
Qed.

(** The inner loop stops at a neighbour of the list that passes the three
    tests, and moves there. *)
Lemma main_scan_move G st neighbors st' :
  Main.scan G st neighbors = Some st' ->
  exists neighbor l, neighbor ∈ neighbors ∧ move G st st' neighbor l.
Proof.
  induction neighbors as [|nb rest IH]; simpl; [discriminate|].
  intros Hscan.
  assert (Hrest : Main.scan G st rest = Some st' ->
                  exists neighbor l, neighbor ∈ nb :: rest ∧ move G st st' neighbor l).
  { intros H. destruct (IH H) as (x & l & Hin & Hm). exists x, l.
    split; [by right | done]. }
  destruct (decide _) as [Hb|Hb]; [auto|].
  destruct (decide _) as [Hc|Hc]; [auto|].
  destruct (edge_len G (cur st) nb) as [l|] eqn:Hl; [|auto].
  injection Hscan as <-. exists nb, l. split; [by left|]. by split.
Qed.

Lemma copy_scan_move G st neighbors st' :
  MainCopy.scan G st neighbors = Some st' ->
  exists neighbor l, neighbor ∈ neighbors ∧ move G st st' neighbor l.
Proof.
  induction neighbors as [|nb rest IH]; simpl; [discriminate|].
  intros Hscan.
  assert (Hrest : MainCopy.scan G st rest = Some st' ->
                  exists neighbor l, neighbor ∈ nb :: rest ∧ move G st st' neighbor l).
  { intros H. destruct (IH H) as (x & l & Hin & Hm). exists x, l.
    split; [by right | done]. }
  destruct (decide _) as [Hb|Hb]; [auto|].
  destruct (decide _) as [Hc|Hc]; [auto|].
  destruct (edge_len G (cur st) nb) as [l|] eqn:Hl; [|auto].
  injection Hscan as <-. exists nb, l. split; [by left|]. by split.
Qed.

Lemma traversals_snoc path node x :
  last path = Some node ->
  traversals (path ++ [x]) = traversals path ++ [(node, x)].
Proof.
  unfold traversals. induction path as [|a p IH]; [discriminate|].
  destruct p as [|b p].
  - simpl. intros H. by injection H as <-.
  - intros Hlast. change (last (a :: b :: p)) with (last (b :: p)) in Hlast.
    specialize (IH Hlast). simpl in *. by rewrite IH.
Qed.

Lemma edge_tally_snoc path node x :
  last path = Some node ->
  edge_tally (path ++ [x]) =
  <[MainCopy.edge_key node x :=
      default 0 (edge_tally path !! MainCopy.edge_key node x) + 1]>
    (edge_tally path).
Proof.
  intros Hlast. unfold edge_tally.
  by rewrite (traversals_snoc _ _ _ Hlast), foldl_app.
Qed.

(** The tally of an unordered pair is the number of its traversals. *)
Lemma edge_tally_lookup path k :
  default 0 (edge_tally path !! k) =
  Z.of_nat (length (filter (fun uv => MainCopy.edge_key uv.1 uv.2 = k)
                      (traversals path))).
Proof.
  unfold edge_tally.
  enough (Hgen : forall l (m : gmap (node * node) Z),
    default 0 (foldl (fun tally uv =>
                        let k := MainCopy.edge_key uv.1 uv.2 in
                        <[k := default 0 (tally !! k) + 1]> tally) m l !! k) =
    default 0 (m !! k)
    + Z.of_nat (length (filter (fun uv => MainCopy.edge_key uv.1 uv.2 = k) l))).
  { rewrite Hgen, lookup_empty. simpl. lia. }
  induction l as [|uv l IH]; intros m; simpl; [lia|].
  rewrite IH. destruct (decide (MainCopy.edge_key uv.1 uv.2 = k)) as [Hk|Hk].
  - rewrite filter_cons_True by done. rewrite Hk, lookup_insert_eq. simpl. lia.
  - rewrite filter_cons_False by done. by rewrite lookup_insert_ne.
Qed.

(** The inner loop of [main copy.py] keeps [visited_edges] the tally of the
    path. *)
Lemma copy_scan_tally G start (st : MainCopy.state) neighbors st' :
  MainCopy.scan G st neighbors = Some st' ->
  walk_inv start st ->
  visited_edges st = edge_tally (path st) ->
  visited_edges st' = edge_tally (path st').
Proof.
  intros Hscan Hinv Htally.
  induction neighbors as [|nb rest IH]; simpl in Hscan; [discriminate|].
  destruct (decide _) as [Hb|Hb]; [auto|].
  destruct (decide _) as [Hc|Hc]; [auto|].
  destruct (edge_len G (cur st) nb) as [l|] eqn:Hl; [|auto].
  injection Hscan as <-. simpl.
  rewrite (edge_tally_snoc _ _ _ (inv_last _ _ Hinv)). by rewrite Htally.
Qed.

Section WalkFacts.

Variable great_circle : Q -> Q -> Q -> Q -> Q.
Variable rng : Type.
Variable shuffle : rng -> list node -> list node * rng.

(** The state in which [walk] returns a candidate. *)
Lemma main_walk_returns G start target_dist margin remaining st g c g' :
  Main.walk great_circle rng shuffle G start target_dist margin remaining st g
  = (Returned (Some c), g') ->
  walk_inv start st ->
  exists st' : Main.state,
    walk_inv start st'
    ∧ steps st' ≤ steps st + Z.of_nat remaining
    ∧ Main.in_band margin target_dist (dist st')
    ∧ Main.is_close_to_start great_circle G (cur st') start 50 = Returned true
    ∧ c = {| c_path := path st'; c_dist := dist st';
             c_score := Main.score_path (path st') (dist st') target_dist |}.
Proof.
  revert st g. induction remaining as [|r IH]; intros st g Hwalk Hinv;
    simpl in Hwalk; [discriminate|].
  destruct (successors G (cur st)) as [nbrs|e]; [|discriminate].
  destruct (shuffle g nbrs) as [nbrs' g1].
  destruct (Main.scan G st nbrs') as [st1|] eqn:Hscan; [|discriminate].
  apply main_scan_move in Hscan as (nb & l & _ & Hmove).
  pose proof (move_preserves_inv _ _ _ _ _ _ Hinv Hmove) as Hinv1.
  pose proof (move_steps _ _ _ _ _ Hmove) as Hsteps.
  assert (Hnext :
    Main.walk great_circle rng shuffle G start target_dist margin r st1 g1
    = (Returned (Some c), g') ->
    exists st' : Main.state, walk_inv start st'
      ∧ steps st' ≤ steps st + Z.of_nat (S r)
      ∧ Main.in_band margin target_dist (dist st')
      ∧ Main.is_close_to_start great_circle G (cur st') start 50 = Returned true
      ∧ c = {| c_path := path st'; c_dist := dist st';
               c_score := Main.score_path (path st') (dist st') target_dist |}).
  { intros H. destruct (IH _ _ H Hinv1) as (st' & ? & ? & ? & ? & ?).
    exists st'. split_and!; try done; lia. }
  destruct (decide (Main.in_band margin target_dist (dist st1))) as [Hband|Hband];
    [|auto].
  destruct (Main.is_close_to_start great_circle G (cur st1) start 50)
    as [[|]|e] eqn:Hclose; [| auto | discriminate].
  injection Hwalk as <- <-. exists st1. split_and!; try done; lia.
Qed.

Lemma copy_walk_returns G start target_dist margin remaining st g c g' :
  MainCopy.walk great_circle rng shuffle G start target_dist margin remaining st g
  = (Returned (Some c), g') ->
  walk_inv start st ->
  visited_edges st = edge_tally (path st) ->
  exists st' : MainCopy.state,
    walk_inv start st'
    ∧ visited_edges st' = edge_tally (path st')
    ∧ steps st' ≤ steps st + Z.of_nat remaining
    ∧ ((1 - margin) * target_dist <= dist st')%Q
    ∧ MainCopy.is_close_to_start great_circle G (cur st') start 100 = Returned true
    ∧ c = {| c_path := path st'; c_dist := dist st';
             c_score := MainCopy.score_path (path st') (dist st') target_dist
                          (visited_edges st') |}.
Proof.
  revert st g. induction remaining as [|r IH]; intros st g Hwalk Hinv Htally;
    simpl in Hwalk; [discriminate|].
  destruct (successors G (cur st)) as [nbrs|e]; [|discriminate].
  destruct (shuffle g nbrs) as [nbrs' g1].
  destruct (MainCopy.scan G st nbrs') as [st1|] eqn:Hscan; [|discriminate].
  pose proof (copy_scan_tally _ _ _ _ _ Hscan Hinv Htally) as Htally1.
  apply copy_scan_move in Hscan as (nb & l & _ & Hmove).
  pose proof (move_preserves_inv _ _ _ _ _ _ Hinv Hmove) as Hinv1.
  pose proof (move_steps _ _ _ _ _ Hmove) as Hsteps.
  assert (Hnext :
    MainCopy.walk great_circle rng shuffle G start target_dist margin r st1 g1
    = (Returned (Some c), g') ->
    exists st' : MainCopy.state, walk_inv start st'
      ∧ visited_edges st' = edge_tally (path st')
      ∧ steps st' ≤ steps st + Z.of_nat (S r)
      ∧ ((1 - margin) * target_dist <= dist st')%Q
      ∧ MainCopy.is_close_to_start great_circle G (cur st') start 100 = Returned true
      ∧ c = {| c_path := path st'; c_dist := dist st';
               c_score := MainCopy.score_path (path st') (dist st') target_dist
                            (visited_edges st') |}).
  { intros H. destruct (IH _ _ H Hinv1 Htally1) as (st' & ? & ? & ? & ? & ? & ?).
    exists st'. split_and!; try done; lia. }
  destruct (decide ((1 - margin) * target_dist <= dist st1)%Q) as [Hband|Hband];
    [|auto].
  destruct (MainCopy.is_close_to_start great_circle G (cur st1) start 100)
    as [[|]|e] eqn:Hclose; [| auto | discriminate].
  injection Hwalk as <- <-. exists st1. split_and!; try done; lia.
Qed.

(** The same for [random_loop], which starts the walk at [start]. *)
Lemma main_random_loop_returns G start target_dist margin max_steps i g c g' :
  Main.random_loop great_circle rng shuffle G start target_dist margin max_steps i g
  = (Returned (Some c), g') ->
  exists st' : Main.state,
    walk_inv start st'
    ∧ steps st' ≤ max_steps
    ∧ Main.in_band margin target_dist (dist st')
    ∧ Main.is_close_to_start great_circle G (cur st') start 50 = Returned true
    ∧ c = {| c_path := path st'; c_dist := dist st';
             c_score := Main.score_path (path st') (dist st') target_dist |}.
Proof.
  unfold Main.random_loop. intros Hwalk.
  destruct (decide (max_steps ≤ 0)) as [Hle|Hgt].
  { replace (Z.to_nat max_steps) with 0%nat in Hwalk by lia. discriminate. }
  apply main_walk_returns in Hwalk as (st' & ? & Hs & ? & ? & ?);
    [|apply main_initial_inv].
  exists st'. split_and!; try done. simpl in Hs. lia.
Qed.

Lemma copy_random_loop_returns G start target_dist margin max_steps i g c g' :
  MainCopy.random_loop great_circle rng shuffle G start target_dist margin max_steps i g
  = (Returned (Some c), g') ->
  exists st' : MainCopy.state,
    walk_inv start st'
    ∧ visited_edges st' = edge_tally (path st')
    ∧ steps st' ≤ max_steps
    ∧ ((1 - margin) * target_dist <= dist st')%Q
    ∧ MainCopy.is_close_to_start great_circle G (cur st') start 100 = Returned true
    ∧ c = {| c_path := path st'; c_dist := dist st';
             c_score := MainCopy.score_path (path st') (dist st') target_dist
                          (visited_edges st') |}.
Proof.
  unfold MainCopy.random_loop. intros Hwalk.
  destruct (decide (max_steps ≤ 0)) as [Hle|Hgt].
  { replace (Z.to_nat max_steps) with 0%nat in Hwalk by lia. discriminate. }
  apply copy_walk_returns in Hwalk as (st' & ? & ? & Hs & ? & ? & ?);
    [|apply copy_initial_inv|reflexivity].
  exists st'. split_and!; try done. simpl in Hs. lia.
Qed.

End WalkFacts.

Lemma main_is_close_true great_circle G node start threshold_m :
  Main.is_close_to_start great_circle G node start threshold_m = Returned true ->
  exists y1 x1 y0 x0,
    g_nodes G !! node = Some (y1, x1) ∧ g_nodes G !! start = Some (y0, x0)
    ∧ (great_circle y1 x1 y0 x0 < threshold_m)%Q.
Proof.
  unfold Main.is_close_to_start, coords, obind.
  destruct (g_nodes G !! node) as [[y1 x1]|]; [|discriminate].
  destruct (g_nodes G !! start) as [[y0 x0]|]; [|discriminate].
  intros H. injection H as H. apply bool_decide_eq_true in H.
  by exists y1, x1, y0, x0.
Qed.

Lemma copy_is_close_true great_circle G node start threshold_m :
  MainCopy.is_close_to_start great_circle G node start threshold_m = Returned true ->
  exists y1 x1 y0 x0,
    g_nodes G !! node = Some (y1, x1) ∧ g_nodes G !! start = Some (y0, x0)
    ∧ (great_circle y1 x1 y0 x0 < threshold_m)%Q.
Proof.
  unfold MainCopy.is_close_to_start, coords, obind.
  destruct (g_nodes G !! node) as [[y1 x1]|]; [|discriminate].
  destruct (g_nodes G !! start) as [[y0 x0]|]; [|discriminate].
  intros H. injection H as H. apply bool_decide_eq_true in H.
  by exists y1, x1, y0, x0.
Qed.

(** C6. A path returned by [random_loop], in either script, has at most
    [max_steps] transitions, that is at most [max_steps + 1] nodes, and no
    node of it equals the node two places earlier. *)
Theorem walk_bounded_no_backtrack
    great_circle rng shuffle G start target_dist margin max_steps i g c g' :
  Main.random_loop great_circle rng shuffle G start target_dist margin max_steps i g
    = (Returned (Some c), g')
  ∨ MainCopy.random_loop great_circle rng shuffle G start target_dist margin max_steps i g
    = (Returned (Some c), g') ->
  Z.of_nat (length (c_path c)) ≤ max_steps + 1
  ∧ forall (j : nat) (x y : node),
      c_path c !! j = Some x -> c_path c !! (j + 2)%nat = Some y -> x ≠ y.
Proof.
  intros [H|H].
  - apply main_random_loop_returns in H as (st & Hinv & Hsteps & _ & _ & ->).
    simpl. split; [|apply (inv_back _ _ Hinv)].
    rewrite (inv_steps _ _ Hinv). lia.
  - apply copy_random_loop_returns in H as (st & Hinv & _ & Hsteps & _ & _ & ->).
    simpl. split; [|apply (inv_back _ _ Hinv)].
    rewrite (inv_steps _ _ Hinv). lia.
Qed.

Lemma walk_bounded_no_backtrack_witness :
  Z.of_nat (length [1; 2; 3; 1]) ≤ 120 + 1
  ∧ forall (j : nat) (x y : node),
      [1; 2; 3; 1] !! j = Some x -> [1; 2; 3; 1] !! (j + 2)%nat = Some y -> x ≠ y.
Proof.
  apply (walk_bounded_no_backtrack Examples.planar_distance nat Examples.keep_order
           (Examples.triangle (Some 100%Q)) 1 300%Q (1#10)%Q 120 1 0%nat
           {| c_path := [1; 2; 3; 1]; c_dist := 300%Q; c_score := (-15)%Q |} 3%nat).
  left. vm_compute. reflexivity.
Defined.

(** C9. In a path returned by [random_loop], in either script, a node other
    than the start occurs at most 3 times and the start at most 4 times;
    the fourth occurrence of the start happens: on the one-way triangle
    with a target of three rounds both scripts return a path that holds
    the start four times. *)
Theorem revisit_cap :
  (forall great_circle rng shuffle G start target_dist margin max_steps i g c g',
     Main.random_loop great_circle rng shuffle G start target_dist margin max_steps i g
       = (Returned (Some c), g')
     ∨ MainCopy.random_loop great_circle rng shuffle G start target_dist margin max_steps i g
       = (Returned (Some c), g') ->
     forall n, (occurrences n (c_path c) ≤ if decide (n = start) then 4 else 3)%nat)
  ∧ (exists c g',
       Main.random_loop Examples.planar_distance nat Examples.keep_order
         (Examples.triangle (Some 100%Q)) 1 900%Q (1#10)%Q 120 1 0%nat
       = (Returned (Some c), g')
       ∧ occurrences 1 (c_path c) = 4%nat)
  ∧ (exists c g',
       MainCopy.random_loop Examples.planar_distance nat Examples.keep_order
         (Examples.triangle (Some 100%Q)) 1 900%Q (1#10)%Q 200 1 0%nat
       = (Returned (Some c), g')
       ∧ occurrences 1 (c_path c) = 4%nat).
Proof.
  split_and!.
  - intros great_circle rng shuffle G start target_dist margin max_steps i g c g' [H|H] n.
    + apply main_random_loop_returns in H as (st & Hinv & _ & _ & _ & ->).
      simpl. by apply inv_occurrences.
    + apply copy_random_loop_returns in H as (st & Hinv & _ & _ & _ & _ & ->).
      simpl. by apply inv_occurrences.
  - eexists _, _. split; [vm_compute; reflexivity|]. vm_compute. reflexivity.
  - eexists _, _. split; [vm_compute; reflexivity|]. vm_compute. reflexivity.
Qed.

Lemma revisit_cap_witness :
  (occurrences 1%Z Examples.one_round ≤ if decide (1%Z = 1%Z) then 4 else 3)%nat.
Proof.
  apply (proj1 revisit_cap Examples.planar_distance nat Examples.keep_order
           (Examples.triangle (Some 100%Q)) 1 300%Q (1#10)%Q 120 1 0%nat
           {| c_path := Examples.one_round; c_dist := 300%Q; c_score := (-15)%Q |}
           3%nat).
  left. vm_compute. reflexivity.
Defined.

(** C1, as the scripts have it. A candidate returned by [random_loop] ends
    at a node closer to the start than the threshold, 50 m in [main.py] and
    100 m in [main copy.py]. In [main.py] its distance lies in the band
    [(1 - margin) * target, (1 + margin) * target]; in [main copy.py] it is
    at least [(1 - margin) * target]. *)
Theorem closing_condition
    great_circle rng shuffle G start target_dist margin max_steps i g c g' :
  (Main.random_loop great_circle rng shuffle G start target_dist margin max_steps i g
     = (Returned (Some c), g') ->
   ((1 - margin) * target_dist <= c_dist c)%Q
   ∧ (c_dist c <= (1 + margin) * target_dist)%Q
   ∧ exists node y1 x1 y0 x0,
       last (c_path c) = Some node
       ∧ g_nodes G !! node = Some (y1, x1) ∧ g_nodes G !! start = Some (y0, x0)
       ∧ (great_circle y1 x1 y0 x0 < 50)%Q)
  ∧ (MainCopy.random_loop great_circle rng shuffle G start target_dist margin max_steps i g
       = (Returned (Some c), g') ->
     ((1 - margin) * target_dist <= c_dist c)%Q
     ∧ exists node y1 x1 y0 x0,
         last (c_path c) = Some node
         ∧ g_nodes G !! node = Some (y1, x1) ∧ g_nodes G !! start = Some (y0, x0)
         ∧ (great_circle y1 x1 y0 x0 < 100)%Q).
Proof.
  split; intros H.
  - apply main_random_loop_returns in H as (st & Hinv & _ & [Hlo Hhi] & Hclose & ->).
    simpl. split_and!; try done.
    apply main_is_close_true in Hclose as (y1 & x1 & y0 & x0 & ? & ? & ?).
    exists (cur st), y1, x1, y0, x0. split_and!; try done. apply (inv_last _ _ Hinv).
  - apply copy_random_loop_returns in H as (st & Hinv & _ & _ & Hlo & Hclose & ->).
    simpl. split; [done|].
    apply copy_is_close_true in Hclose as (y1 & x1 & y0 & x0 & ? & ? & ?).
    exists (cur st), y1, x1, y0, x0. split_and!; try done. apply (inv_last _ _ Hinv).
Qed.

Lemma closing_condition_witness :
  ((1 - (1#10)) * 300 <= 300)%Q ∧ (300 <= (1 + (1#10)) * 300)%Q
  ∧ exists node y1 x1 y0 x0,
      last [1; 2; 3; 1] = Some node
      ∧ g_nodes (Examples.triangle (Some 100%Q)) !! node = Some (y1, x1)
      ∧ g_nodes (Examples.triangle (Some 100%Q)) !! 1 = Some (y0, x0)
      ∧ (Examples.planar_distance y1 x1 y0 x0 < 50)%Q.
Proof.
  apply (proj1 (closing_condition Examples.planar_distance nat Examples.keep_order
           (Examples.triangle (Some 100%Q)) 1 300%Q (1#10)%Q 120 1 0%nat
           {| c_path := [1; 2; 3; 1]; c_dist := 300%Q; c_score := (-15)%Q |} 3%nat)).
  vm_compute. reflexivity.
Defined.

(** C1, as claimed, fails on [main copy.py]: on the triangle with sides of
    1000 m and a target of 100 m, [random_loop] returns the round of
    3000 m, above [(1 + margin) * target = 110]. *)
Lemma copy_returns_beyond_band :
  exists c g',
    MainCopy.random_loop Examples.planar_distance nat Examples.keep_order
      (Examples.triangle (Some 1000%Q)) 1 100%Q (1#10)%Q 200 1 0%nat
    = (Returned (Some c), g')
    ∧ ¬ (c_dist c <= (1 + (1#10)) * 100)%Q.
Proof.
  eexists _, _. split; [vm_compute; reflexivity|].
  simpl. intros H. vm_compute in H. by apply H.
Qed.

(* ===================================================================== *)
(** * The score *)
(* ===================================================================== *)

Lemma inject_Z_lt_mult (a b w : Z) :
  a < b -> 0 < w -> (inject_Z (a * w) < inject_Z (b * w))%Q.
Proof. intros Hab Hw. rewrite <- Zlt_Qlt. nia. Qed.

(** The edge term of the sum, set apart. *)
Lemma component_sum_edge_term wu wr ws we window path d t tally :
  (component_sum wu wr ws we window path d t tally ==
   component_sum wu wr ws 0 window path d t tally
   - inject_Z (MainCopy.repeated_edges tally * we))%Q.
Proof.
  unfold component_sum. cbv zeta. rewrite Z.mul_0_r.
  change (inject_Z 0) with 0%Q. ring.
Qed.

Lemma main_score_path_sum path d t tally :
  (Main.score_path path d t == component_sum 10 20 25 0 20 path d t tally)%Q.
Proof.
  unfold Main.score_path, component_sum. cbv zeta. rewrite Z.mul_0_r.
  change (inject_Z 0) with 0%Q. ring.
Qed.

Lemma copy_score_path_sum path d t tally :
  MainCopy.score_path path d t tally = component_sum 10 40 30 20 30 path d t tally.
Proof. reflexivity. Qed.

(** C8. Scoring is deterministic, and with the number of distinct nodes,
    the number of short subloops and the other inputs fixed, a path with
    more repeated nodes ([len(path) - len(set(path))]) scores strictly
    lower; in both scripts. *)
Theorem score_decreases_with_repeats :
  (forall path d d' t t',
     (d == d')%Q -> (t == t')%Q ->
     (Main.score_path path d t == Main.score_path path d' t')%Q)
  ∧ (forall path d d' t t' tally,
       (d == d')%Q -> (t == t')%Q ->
       (MainCopy.score_path path d t tally == MainCopy.score_path path d' t' tally)%Q)
  ∧ (forall p1 p2 d t,
       len_set p1 = len_set p2 ->
       subloop_scan 20 0 ∅ 0 p1 = subloop_scan 20 0 ∅ 0 p2 ->
       Z.of_nat (length p1) - Z.of_nat (len_set p1)
         < Z.of_nat (length p2) - Z.of_nat (len_set p2) ->
       (Main.score_path p2 d t < Main.score_path p1 d t)%Q)
  ∧ (forall p1 p2 d t tally,
       len_set p1 = len_set p2 ->
       subloop_scan 30 0 ∅ 0 p1 = subloop_scan 30 0 ∅ 0 p2 ->
       Z.of_nat (length p1) - Z.of_nat (len_set p1)
         < Z.of_nat (length p2) - Z.of_nat (len_set p2) ->
       (MainCopy.score_path p2 d t tally < MainCopy.score_path p1 d t tally)%Q).
Proof.
  split_and!.
  - intros path d d' t t' Hd Ht. unfold Main.score_path. cbv zeta.
    by rewrite Hd, Ht.
  - intros path d d' t t' tally Hd Ht. unfold MainCopy.score_path. cbv zeta.
    by rewrite Hd, Ht.
  - intros p1 p2 d t Hu Hs Hr. unfold Main.score_path. cbv zeta.
    rewrite Hu, Hs in *.
    pose proof (inject_Z_lt_mult _ _ 20 Hr eq_refl) as Hlt.
    revert Hlt. generalize (inject_Z ((Z.of_nat (length p1) - Z.of_nat (len_set p2)) * 20)).
    generalize (inject_Z ((Z.of_nat (length p2) - Z.of_nat (len_set p2)) * 20)).
    intros a b Hlt. lra.
  - intros p1 p2 d t tally Hu Hs Hr. unfold MainCopy.score_path. cbv zeta.
    rewrite Hu, Hs in *.
    pose proof (inject_Z_lt_mult _ _ 40 Hr eq_refl) as Hlt.
    revert Hlt. generalize (inject_Z ((Z.of_nat (length p1) - Z.of_nat (len_set p2)) * 40)).
    generalize (inject_Z ((Z.of_nat (length p2) - Z.of_nat (len_set p2)) * 40)).
    intros a b Hlt. lra.
Qed.

Lemma score_decreases_with_repeats_witness :
  (Main.score_path (seqZ 0%Z 20%Z ++ [0%Z]) 5000 5000
     < Main.score_path (seqZ 0%Z 20%Z) 5000 5000)%Q
  ∧ (MainCopy.score_path (seqZ 0%Z 30%Z ++ [0%Z]) 5000 5000 ∅
       < MainCopy.score_path (seqZ 0%Z 30%Z) 5000 5000 ∅)%Q.
Proof.
  destruct score_decreases_with_repeats as (_ & _ & Hmain & Hcopy). split.
  - apply Hmain; vm_compute; reflexivity.
  - apply Hcopy; vm_compute; reflexivity.
Defined.

(** C2, as the scripts have it. In [main copy.py] the score of a returned
    candidate is the sum of the five components with weights 10, 40, 30 and
    20 and window 30, the last one being 20 times the number of unordered
    node pairs traversed more than once along its path, and a tally with
    more such pairs gives a strictly lower score. In [main.py] the score is
    the sum of the first four components, with weights 10, 20, 25 and
    window 20: the weight of the edge term is 0. *)
Theorem edge_repeat_penalty :
  (forall great_circle rng shuffle G start target_dist margin max_steps i g c g',
     MainCopy.random_loop great_circle rng shuffle G start target_dist margin max_steps i g
       = (Returned (Some c), g') ->
     c_score c = component_sum 10 40 30 20 30 (c_path c) (c_dist c) target_dist
                   (edge_tally (c_path c)))
  ∧ (forall path d t tally1 tally2,
       MainCopy.repeated_edges tally1 < MainCopy.repeated_edges tally2 ->
       (MainCopy.score_path path d t tally2 < MainCopy.score_path path d t tally1)%Q)
  ∧ (forall great_circle rng shuffle G start target_dist margin max_steps i g c g',
       Main.random_loop great_circle rng shuffle G start target_dist margin max_steps i g
         = (Returned (Some c), g') ->
       (c_score c == component_sum 10 20 25 0 20 (c_path c) (c_dist c) target_dist
                       (edge_tally (c_path c)))%Q).
Proof.
  split_and!.
  - intros great_circle rng shuffle G start target_dist margin max_steps i g c g' H.
    apply copy_random_loop_returns in H as (st & _ & Htally & _ & _ & _ & ->).
    simpl. rewrite Htally. apply copy_score_path_sum.
  - intros path d t tally1 tally2 Hlt.
    rewrite (copy_score_path_sum path d t tally1).
    rewrite (copy_score_path_sum path d t tally2).
    pose proof (component_sum_edge_term 10 40 30 20 30 path d t tally1) as H1.
    pose proof (component_sum_edge_term 10 40 30 20 30 path d t tally2) as H2.
    pose proof (inject_Z_lt_mult _ _ 20 Hlt eq_refl) as Hq.
    assert (Hbase : component_sum 10 40 30 0 30 path d t tally1
                    = component_sum 10 40 30 0 30 path d t tally2).
    { unfold component_sum. cbv zeta. by rewrite !Z.mul_0_r. }
    rewrite Hbase in H1. revert H1 H2 Hq.
    generalize (component_sum 10 40 30 20 30 path d t tally1).
    generalize (component_sum 10 40 30 20 30 path d t tally2).
    generalize (component_sum 10 40 30 0 30 path d t tally2).
    generalize (inject_Z (MainCopy.repeated_edges tally1 * 20)).
    generalize (inject_Z (MainCopy.repeated_edges tally2 * 20)).
    intros e2 e1 base s2 s1 H1 H2 Hq. lra.
  - intros great_circle rng shuffle G start target_dist margin max_steps i g c g' H.
    apply main_random_loop_returns in H as (st & _ & _ & _ & _ & ->).
    simpl. apply main_score_path_sum.
Qed.

Lemma edge_repeat_penalty_witness :
  (-40)%Q
  = component_sum 10 40 30 20 30 Examples.one_round 300%Q 300%Q
      (edge_tally Examples.one_round)
  ∧ (MainCopy.score_path Examples.one_round 300 300 (edge_tally Examples.to_and_fro)
       < MainCopy.score_path Examples.one_round 300 300
           (edge_tally Examples.one_round))%Q.
Proof.
  destruct edge_repeat_penalty as (Hsum & Hmono & _). split.
  - apply (Hsum Examples.planar_distance nat Examples.keep_order
             (Examples.triangle (Some 100%Q)) 1 300%Q (1#10)%Q 200 1 0%nat
             {| c_path := Examples.one_round; c_dist := 300%Q; c_score := (-40)%Q |}
             3%nat).
    vm_compute. reflexivity.
  - apply Hmono. vm_compute. reflexivity.
Defined.

(** C2, as claimed, fails on [main.py]: the candidate that goes three times
    round the triangle traverses each of its three sides more than once,
    and its score is not the sum with an edge term, whatever the positive
    weight. *)
Lemma main_score_has_no_edge_term :
  exists c g',
    Main.random_loop Examples.planar_distance nat Examples.keep_order
      (Examples.triangle (Some 100%Q)) 1 900%Q (1#10)%Q 120 1 0%nat
    = (Returned (Some c), g')
    ∧ MainCopy.repeated_edges (edge_tally (c_path c)) = 3
    ∧ forall w_edge_repeat, 0 < w_edge_repeat ->
        ¬ (c_score c ==
           component_sum 10 20 25 w_edge_repeat 20 (c_path c) (c_dist c) 900
             (edge_tally (c_path c)))%Q.
Proof.
  exists {| c_path := Examples.three_rounds; c_dist := 900%Q; c_score := (-285)%Q |},
         9%nat.
  cbn [c_path c_dist c_score].
  assert (Hthree : MainCopy.repeated_edges (edge_tally Examples.three_rounds) = 3)
    by (vm_compute; reflexivity).
  split_and!; [vm_compute; reflexivity | exact Hthree |].
  intros w Hw Heq.
  pose proof (component_sum_edge_term 10 20 25 w 20 Examples.three_rounds 900 900
                (edge_tally Examples.three_rounds)) as Hterm.
  pose proof (main_score_path_sum Examples.three_rounds 900 900
                (edge_tally Examples.three_rounds)) as Hmain.
  rewrite Hthree in Hterm.
  assert (Hpos : (0 < inject_Z (3 * w))%Q).
  { change 0%Q with (inject_Z 0). rewrite <- Zlt_Qlt. lia. }
  assert (Hscore : Main.score_path Examples.three_rounds 900 900 = (-285)%Q)
    by (vm_compute; reflexivity).
  rewrite Hscore in Hmain. revert Heq Hterm Hmain Hpos.
  generalize (component_sum 10 20 25 w 20 Examples.three_rounds 900 900
                (edge_tally Examples.three_rounds)).
  generalize (component_sum 10 20 25 0 20 Examples.three_rounds 900 900
                (edge_tally Examples.three_rounds)).
  generalize (inject_Z (3 * w)).
  intros e base s Heq Hterm Hmain Hpos. lra.
Qed.

(* ===================================================================== *)
(** * Edges without a length *)
(* ===================================================================== *)

Lemma edge_len_default G u v k d ds :
  get_edge_data G u v = Some ((k, d) :: ds) -> d_length d = None ->
  edge_len G u v = Some 1%Q.
Proof. unfold edge_len. intros -> ->. reflexivity. Qed.

(** C10. When the first edge from the current node to a neighbour that
    passes the backtrack and revisit tests has no length, the inner loop of
    either script moves to that neighbour and adds 1 to the distance; so on
    the triangle whose sides carry no length both scripts return the round
    with a distance of 3, whatever the real length of the sides. *)
Theorem missing_length_counts_one :
  (forall G (st : Main.state) neighbor rest k d ds,
     get_edge_data G (cur st) neighbor = Some ((k, d) :: ds) ->
     d_length d = None ->
     ¬ ((2 ≤ length (path st))%nat ∧ second_last (path st) = Some neighbor) ->
     ¬ (3 ≤ default 0 (node_visits st !! neighbor)) ->
     exists st',
       Main.scan G st (neighbor :: rest) = Some st'
       ∧ path st' = path st ++ [neighbor]
       ∧ dist st' = (dist st + 1)%Q
       ∧ cur st' = neighbor)
  ∧ (forall G (st : MainCopy.state) neighbor rest k d ds,
       get_edge_data G (cur st) neighbor = Some ((k, d) :: ds) ->
       d_length d = None ->
       ¬ ((2 ≤ length (path st))%nat ∧ second_last (path st) = Some neighbor) ->
       ¬ (3 ≤ default 0 (node_visits st !! neighbor)) ->
       exists st',
         MainCopy.scan G st (neighbor :: rest) = Some st'
         ∧ path st' = path st ++ [neighbor]
         ∧ dist st' = (dist st + 1)%Q
         ∧ cur st' = neighbor)
  ∧ (exists c g',
       Main.random_loop Examples.planar_distance nat Examples.keep_order
         (Examples.triangle None) 1 3%Q (1#10)%Q 120 1 0%nat
       = (Returned (Some c), g')
       ∧ c_path c = [1; 2; 3; 1] ∧ c_dist c = 3%Q)
  ∧ (exists c g',
       MainCopy.random_loop Examples.planar_distance nat Examples.keep_order
         (Examples.triangle None) 1 3%Q (1#10)%Q 200 1 0%nat
       = (Returned (Some c), g')
       ∧ c_path c = [1; 2; 3; 1] ∧ c_dist c = 3%Q).
Proof.
  split_and!.
  - intros G st neighbor rest k d ds Hdata Hlen Hback Hcap. simpl.
    rewrite decide_False by exact Hback. rewrite decide_False by exact Hcap.
    rewrite (edge_len_default _ _ _ _ _ _ Hdata Hlen). by eexists.
  - intros G st neighbor rest k d ds Hdata Hlen Hback Hcap. simpl.
    rewrite decide_False by exact Hback. rewrite decide_False by exact Hcap.
    rewrite (edge_len_default _ _ _ _ _ _ Hdata Hlen). by eexists.
  - eexists _, _. split; [vm_compute; reflexivity|]. split; reflexivity.
  - eexists _, _. split; [vm_compute; reflexivity|]. split; reflexivity.
Qed.

Lemma missing_length_counts_one_witness :
  exists st',
    Main.scan (Examples.triangle None) (Main.initial 1) [2] = Some st'
    ∧ path st' = [1] ++ [2]
    ∧ dist st' = (0 + 1)%Q
    ∧ cur st' = 2.
Proof.
  apply (proj1 missing_length_counts_one (Examples.triangle None) (Main.initial 1)
           2 [] 0 {| d_length := None; d_highway := HwAbsent |} []).
  - vm_compute. reflexivity.
  - reflexivity.
  - simpl. lia.
  - unfold Main.initial. simpl. rewrite lookup_empty. simpl. lia.
Defined.

(* ===================================================================== *)
(** * The search *)
(* ===================================================================== *)

Lemma list_compare_antisym a b :
  list_compare b a = CompOpp (list_compare a b).
Proof.
  revert b. induction a as [|x a IH]; intros [|y b]; simpl; try reflexivity.
  rewrite (Z.compare_antisym x y). destruct (x ?= y); simpl; auto.
Qed.

Lemma entry_compare_antisym a b :
  entry_compare b a = CompOpp (entry_compare a b).
Proof.
  unfold entry_compare.
  rewrite <- (Qcompare_antisym (r_score a) (r_score b)).
  destruct (r_score a ?= r_score b)%Q; simpl; try reflexivity.
  rewrite (list_compare_antisym (r_path a) (r_path b)).
  destruct (list_compare (r_path a) (r_path b)); simpl; try reflexivity.
  symmetry. apply Qcompare_antisym.
Qed.

Lemma precedes_score a b : precedes a b -> (r_score b <= r_score a)%Q.
Proof.
  unfold precedes, entry_compare. intros H.
  destruct (Qcompare_spec (r_score a) (r_score b)) as [Heq|Hlt|Hgt].
  - rewrite Heq. apply Qle_refl.
  - by destruct H.
  - by apply Qlt_le_weak.
Qed.

Lemma insert_desc_Permutation x l : insert_desc x l ≡ₚ x :: l.
Proof.
  induction l as [|y l IH]; simpl; [done|].
  destruct (entry_compare x y); try done.
  rewrite IH. apply Permutation_swap.
Qed.

Lemma insert_desc_HdRel x y l :
  precedes y x -> HdRel precedes y l -> HdRel precedes y (insert_desc x l).
Proof.
  intros Hyx [|z l' Hyz]; simpl; [by constructor|].
  destruct (entry_compare x z); by constructor.
Qed.

Lemma insert_desc_Sorted x l :
  Sorted precedes l -> Sorted precedes (insert_desc x l).
Proof.
  induction 1 as [|y l Hl IH Hhd]; simpl; [by repeat constructor|].
  destruct (entry_compare x y) eqn:Hxy.
  - constructor; [by constructor|]. constructor. unfold precedes. by rewrite Hxy.
  - constructor; [exact IH|]. apply insert_desc_HdRel; [|exact Hhd].
    unfold precedes. by rewrite entry_compare_antisym, Hxy.
  - constructor; [by constructor|]. constructor. unfold precedes. by rewrite Hxy.
Qed.

Lemma sort_reverse_Permutation l : sort_reverse l ≡ₚ l.
Proof.
  induction l as [|x l IH]; simpl; [done|].
  by rewrite insert_desc_Permutation, IH.
Qed.

Lemma sort_reverse_Sorted l : Sorted precedes (sort_reverse l).
Proof.
  induction l as [|x l IH]; simpl; [constructor|]. by apply insert_desc_Sorted.
Qed.

Lemma Sorted_weaken {A} (R S : relation A) l :
  (forall a b, R a b -> S a b) -> Sorted R l -> Sorted S l.
Proof.
  intros HRS. induction 1 as [|x l Hl IH Hhd]; constructor; [exact IH|].
  destruct Hhd; constructor; auto.
Qed.

Lemma StronglySorted_lookup_lt {A} (R : relation A) l (i j : nat) a b :
  StronglySorted R l -> (i < j)%nat -> l !! i = Some a -> l !! j = Some b -> R a b.
Proof.
  intros Hl. revert i j. induction Hl as [|x l Hl IH Hx]; intros i j Hij Ha Hb;
    [discriminate|].
  destruct j as [|j]; [lia|]. simpl in Hb. destruct i as [|i].
  - simpl in Ha. injection Ha as <-. rewrite Forall_forall in Hx.
    apply Hx. by eapply list_elem_of_lookup_2.
  - simpl in Ha. apply (IH i j); [lia|done..].
Qed.

(** The scores of a sorted list do not increase. *)
Lemma sort_reverse_scores l (i j : nat) a b :
  (i ≤ j)%nat -> sort_reverse l !! i = Some a -> sort_reverse l !! j = Some b ->
  (r_score b <= r_score a)%Q.
Proof.
  intros Hij Ha Hb. destruct (decide (i = j)) as [->|Hne].
  { rewrite Ha in Hb. injection Hb as <-. apply Qle_refl. }
  assert (Hs : StronglySorted (fun a b => (r_score b <= r_score a)%Q) (sort_reverse l)).
  { apply Sorted_StronglySorted.
    - intros x y z Hxy Hyz. by eapply Qle_trans.
    - eapply Sorted_weaken; [apply precedes_score | apply sort_reverse_Sorted]. }
  apply (StronglySorted_lookup_lt _ _ i j a b Hs); [lia|done..].
Qed.

(** Paths with one LoopKey have one hash. *)
Lemma path_hash_loop_key p q : loop_key p = loop_key q -> path_hash p = path_hash q.
Proof. unfold path_hash, loop_key. by intros ->. Qed.

(** And paths with one hash have one LoopKey: the hash is the LoopKey as a
    sorted tuple. *)
Lemma loop_key_path_hash p q : path_hash p = path_hash q -> loop_key p = loop_key q.
Proof.
  unfold path_hash. intros Hh.
  rewrite <- (list_to_set_elements_L (loop_key p)).
  rewrite <- (list_to_set_elements_L (loop_key q)).
  apply list_to_set_perm_L.
  rewrite <- (merge_sort_Permutation Z.le (elements (loop_key p))).
  rewrite <- (merge_sort_Permutation Z.le (elements (loop_key q))).
  unfold loop_key. by rewrite Hh.
Qed.

Lemma search_inv_mono K K' s : K ⊆ K' -> search_inv K s -> search_inv K' s.
Proof. intros HK [H1 H2 H3]. split; [done..|]. intros r Hr. apply HK. by apply H3. Qed.

Lemma keep_inv K c s :
  search_inv K s -> search_inv ({[ loop_key (c_path c) ]} ∪ K) (keep c s).
Proof.
  intros Hinv. unfold keep. cbv zeta.
  destruct (decide (path_hash (c_path c) ∉ seen_hashes s)) as [Hnew|Hold];
    [|eapply search_inv_mono; [|exact Hinv]; set_solver].
  destruct Hinv as [Hseen Hnodup Hfrom]. split; simpl.
  - intros r Hr. apply elem_of_app in Hr as [Hr|Hr].
    + apply elem_of_union_r. by apply Hseen.
    + apply list_elem_of_singleton in Hr as ->. simpl. set_solver.
  - rewrite fmap_app. apply NoDup_app. split_and!; [done| |apply NoDup_singleton].
    intros k Hk Hk'. simpl in Hk'. apply list_elem_of_singleton in Hk' as ->.
    apply list_elem_of_fmap in Hk as (r & Hkey & Hr).
    apply Hnew. rewrite (path_hash_loop_key _ _ Hkey). by apply Hseen.
  - intros r Hr. apply elem_of_app in Hr as [Hr|Hr].
    + apply elem_of_union_r. by apply Hfrom.
    + apply list_elem_of_singleton in Hr as ->. simpl. set_solver.
Qed.

Lemma search_loop_inv {rng} (run : Z -> rng -> outcome (option candidate) * rng)
    ids s g s' g' K :
  search_loop run ids s g = (Returned s', g') ->
  search_inv K s ->
  search_inv
    (K ∪ list_to_set ((fun c => loop_key (c_path c)) <$> successes run ids g)) s'.
Proof.
  revert s g K. induction ids as [|i ids IH]; intros s g K Hloop Hinv; simpl in *.
  - injection Hloop as <- <-. eapply search_inv_mono; [|exact Hinv]. set_solver.
  - destruct (run i g) as [[[c|]|e] g1]; [| |discriminate].
    + eapply search_inv_mono; [|apply (IH _ _ _ Hloop (keep_inv _ c _ Hinv))].
      rewrite fmap_cons, list_to_set_cons. intros k. rewrite !elem_of_union. tauto.
    + apply (IH _ _ _ Hloop Hinv).
Qed.

Lemma search_inv_length K s :
  search_inv K s -> (length (results s) ≤ size K)%nat.
Proof.
  intros [_ Hnodup Hfrom].
  rewrite <- (length_fmap (fun r => loop_key (r_path r))).
  rewrite <- (size_list_to_set (C := gset (gset node))) by exact Hnodup.
  apply subseteq_size. intros k Hk. apply elem_of_list_to_set in Hk.
  apply list_elem_of_fmap in Hk as (r & -> & Hr). by apply Hfrom.
Qed.

(** The first [top_k] of the sorted results of a search are a ResultSet,
    when [top_k] is not negative. *)
Lemma search_loop_result_set {rng}
    (run : Z -> rng -> outcome (option candidate) * rng) ids g s' g' top_k :
  0 ≤ top_k ->
  search_loop run ids {| results := []; seen_hashes := ∅ |} g = (Returned s', g') ->
  result_set top_k (successes run ids g) (slice_to (sort_reverse (results s')) top_k).
Proof.
  intros Hk Hloop.
  assert (Hinv : search_inv
            (list_to_set ((fun c => loop_key (c_path c)) <$> successes run ids g)) s').
  { eapply search_inv_mono; [|eapply (search_loop_inv run _ _ _ _ _ ∅ Hloop)].
    - apply union_least; [apply empty_subseteq | done].
    - split; simpl; [|constructor|]; intros r Hr; by apply not_elem_of_nil in Hr. }
  unfold slice_to. rewrite decide_True by done. split_and!.
  - rewrite length_take, (Permutation_length (sort_reverse_Permutation _)).
    pose proof (search_inv_length _ _ Hinv) as Hlen. unfold distinct_keys. lia.
  - intros i j a b Hij Ha Hb.
    apply lookup_take_Some in Ha as [Ha _]. apply lookup_take_Some in Hb as [Hb _].
    by eapply sort_reverse_scores.
  - intros i j a b Hij Ha Hb Hkey.
    apply lookup_take_Some in Ha as [Ha _]. apply lookup_take_Some in Hb as [Hb _].
    apply Hij.
    assert (Hnodup : NoDup ((fun r => loop_key (r_path r)) <$> sort_reverse (results s'))).
    { rewrite sort_reverse_Permutation. apply (si_nodup _ _ Hinv). }
    apply (NoDup_lookup _ i j (loop_key (r_path a)) Hnodup).
    + by rewrite list_lookup_fmap, Ha.
    + by rewrite list_lookup_fmap, Hb, Hkey.
Qed.

Section SearchFacts.

Variable great_circle : Q -> Q -> Q -> Q -> Q.
Variable rng : Type.
Variable shuffle : rng -> list node -> list node * rng.

(** The loops of the two scripts are the loop [search_loop] over their own
    [random_loop]. *)
Lemma main_attempts_loop_search G start target_dist margin ids s g :
  Main.attempts_loop great_circle rng shuffle G start target_dist margin ids s g
  = search_loop (Main.random_loop great_circle rng shuffle G start target_dist margin 120)
      ids s g.
Proof.
  revert s g. induction ids as [|i ids IH]; intros s g; simpl; [reflexivity|].
  unfold Main.attempt.
  destruct (Main.random_loop _ _ _ _ _ _ _ _ _ _) as [[[c|]|e] g1]; try done.
  unfold keep. cbv zeta. destruct (decide _); apply IH.
Qed.

Lemma copy_attempts_loop_search G start target_dist margin ids s g :
  MainCopy.attempts_loop great_circle rng shuffle G start target_dist margin ids s g
  = search_loop
      (MainCopy.random_loop great_circle rng shuffle G start target_dist margin 200)
      ids s g.
Proof.
  revert s g. induction ids as [|i ids IH]; intros s g; simpl; [reflexivity|].
  unfold MainCopy.attempt.
  destruct (MainCopy.random_loop _ _ _ _ _ _ _ _ _ _) as [[[c|]|e] g1]; try done.
  unfold keep. cbv zeta. destruct (decide _); apply IH.
Qed.

End SearchFacts.

Lemma slice_to_nil {A} (k : Z) : slice_to (@nil A) k = [].
Proof. unfold slice_to. destruct (decide (0 ≤ k)); apply take_nil. Qed.

Lemma range1_nonpositive n : n ≤ 0 -> range1 n = [].
Proof.
  intros Hn. unfold range1, seqZ. by replace (Z.to_nat n) with 0%nat by lia.
Qed.

Lemma slice_to_take {A} (l : list A) (k : Z) : exists n, slice_to l k = take n l.
Proof. unfold slice_to. destruct (decide (0 ≤ k)); by eexists. Qed.

(** Whatever [top_k], the slice of the sorted results of a search is a list
    of loops. *)
Lemma search_loop_loop_list {rng}
    (run : Z -> rng -> outcome (option candidate) * rng) ids g s' g' top_k :
  search_loop run ids {| results := []; seen_hashes := ∅ |} g = (Returned s', g') ->
  loop_list (successes run ids g) (slice_to (sort_reverse (results s')) top_k).
Proof.
  intros Hloop.
  assert (Hinv : search_inv
            (list_to_set ((fun c => loop_key (c_path c)) <$> successes run ids g)) s').
  { eapply search_inv_mono; [|eapply (search_loop_inv run _ _ _ _ _ ∅ Hloop)].
    - apply union_least; [apply empty_subseteq | done].
    - split; simpl; [|constructor|]; intros r Hr; by apply not_elem_of_nil in Hr. }
  destruct (slice_to_take (sort_reverse (results s')) top_k) as [n ->].
  split_and!.
  - rewrite length_take, (Permutation_length (sort_reverse_Permutation _)).
    pose proof (search_inv_length _ _ Hinv) as Hlen. unfold distinct_keys. lia.
  - intros i j a b Hij Ha Hb.
    apply lookup_take_Some in Ha as [Ha _]. apply lookup_take_Some in Hb as [Hb _].
    by eapply sort_reverse_scores.
  - intros i j a b Hij Ha Hb Hkey.
    apply lookup_take_Some in Ha as [Ha _]. apply lookup_take_Some in Hb as [Hb _].
    apply Hij.
    assert (Hnodup : NoDup ((fun r => loop_key (r_path r)) <$> sort_reverse (results s'))).
    { rewrite sort_reverse_Permutation. apply (si_nodup _ _ Hinv). }
    apply (NoDup_lookup _ i j (loop_key (r_path a)) Hnodup).
    + by rewrite list_lookup_fmap, Ha.
    + by rewrite list_lookup_fmap, Hb, Hkey.
Qed.

(** C5, as the scripts have it. The list that [find_top_loops] returns, in
    either script and for every [top_k], has no more entries than there are
    distinct LoopKeys among the candidates of its attempts, its scores do
    not increase, and the LoopKeys of two of its entries differ. When
    [top_k] is not negative it has at most [top_k] entries as well, so at
    most [min top_k (number of distinct LoopKeys)]. *)
Theorem top_loops_result_set
    great_circle rng shuffle G start target_dist margin attempts top_k g rs g' :
  (Main.find_top_loops great_circle rng shuffle G start target_dist margin
     attempts top_k g = (Returned rs, g') ->
   loop_list
     (successes (Main.random_loop great_circle rng shuffle G start target_dist margin 120)
        (range1 attempts) g) rs
   ∧ (0 ≤ top_k ->
      result_set top_k
        (successes (Main.random_loop great_circle rng shuffle G start target_dist margin 120)
           (range1 attempts) g) rs))
  ∧ (MainCopy.find_top_loops great_circle rng shuffle G start target_dist margin
       attempts top_k g = (Returned rs, g') ->
     loop_list
       (successes
          (MainCopy.random_loop great_circle rng shuffle G start target_dist margin 200)
          (range1 attempts) g) rs
     ∧ (0 ≤ top_k ->
        result_set top_k
          (successes
             (MainCopy.random_loop great_circle rng shuffle G start target_dist margin 200)
             (range1 attempts) g) rs)).
Proof.
  split.
  - unfold Main.find_top_loops. rewrite main_attempts_loop_search.
    destruct (search_loop _ _ _ _) as [[s|e] g1] eqn:Hloop; [|discriminate].
    intros H. injection H as <- <-. split.
    + apply (search_loop_loop_list _ _ _ _ _ _ Hloop).
    + intros Hk. apply (search_loop_result_set _ _ _ _ _ _ Hk Hloop).
  - unfold MainCopy.find_top_loops. rewrite copy_attempts_loop_search.
    destruct (search_loop _ _ _ _) as [[s|e] g1] eqn:Hloop; [|discriminate].
    intros H. injection H as <- <-. split.
    + apply (search_loop_loop_list _ _ _ _ _ _ Hloop).
    + intros Hk. apply (search_loop_result_set _ _ _ _ _ _ Hk Hloop).
Qed.

Lemma top_loops_result_set_witness :
  loop_list
    (successes
       (Main.random_loop Examples.planar_distance nat Examples.alternate
          Examples.two_triangles 1 300%Q (1#10)%Q 120)
       (range1 2) 0%nat)
    [{| r_score := (-15)%Q; r_path := [1; 4; 5; 1]; r_dist := 300%Q |}]
  ∧ loop_list
      (successes
         (Main.random_loop Examples.planar_distance nat Examples.alternate
            Examples.two_triangles 1 300%Q (1#10)%Q 120)
         (range1 2) 0%nat)
      [{| r_score := (-15)%Q; r_path := [1; 4; 5; 1]; r_dist := 300%Q |};
       {| r_score := (-15)%Q; r_path := [1; 2; 3; 1]; r_dist := 300%Q |}]
  ∧ result_set 3
      (successes
         (Main.random_loop Examples.planar_distance nat Examples.alternate
            Examples.two_triangles 1 300%Q (1#10)%Q 120)
         (range1 2) 0%nat)
      [{| r_score := (-15)%Q; r_path := [1; 4; 5; 1]; r_dist := 300%Q |};
       {| r_score := (-15)%Q; r_path := [1; 2; 3; 1]; r_dist := 300%Q |}].
Proof.
  split.
  - apply (proj1 (top_loops_result_set Examples.planar_distance nat Examples.alternate
                    Examples.two_triangles 1 300%Q (1#10)%Q 2 (-1) 0%nat _ 6%nat)).
    vm_compute. reflexivity.
  - destruct (proj1 (top_loops_result_set Examples.planar_distance nat Examples.alternate
                       Examples.two_triangles 1 300%Q (1#10)%Q 2 3 0%nat
                       [{| r_score := (-15)%Q; r_path := [1; 4; 5; 1]; r_dist := 300%Q |};
                        {| r_score := (-15)%Q; r_path := [1; 2; 3; 1]; r_dist := 300%Q |}]
                       6%nat)) as [Hlist Hset].
    + vm_compute. reflexivity.
    + split; [exact Hlist | apply Hset; lia].
Defined.

(** C5, as claimed, fails for a negative [top_k]: with [top_k = -1] the
    slice drops the last of the two loops found on the two triangles and
    returns the other one, more than [min (-1) 2] entries. *)
Lemma top_loops_negative_top_k :
  exists rs g',
    Main.find_top_loops Examples.planar_distance nat Examples.alternate
      Examples.two_triangles 1 300%Q (1#10)%Q 2 (-1) 0%nat = (Returned rs, g')
    ∧ length rs = 1%nat
    ∧ ¬ result_set (-1)
          (successes
             (Main.random_loop Examples.planar_distance nat Examples.alternate
                Examples.two_triangles 1 300%Q (1#10)%Q 120)
             (range1 2) 0%nat) rs.
Proof.
  eexists _, _. split_and!; [vm_compute; reflexivity | reflexivity |].
  intros [Hlen _]. simpl in Hlen. lia.
Qed.

(** C3, as claimed, fails: neither script rejects [attempts = 0],
    [top_k = 0] or [target_dist <= 0]. With [top_k = 0] the two attempts
    run (the generator has made six draws), and with a target of -300 m
    [main copy.py] returns a loop. *)
Lemma search_accepts_bad_configuration :
  ¬ rejects_eagerly
      (Main.find_top_loops Examples.planar_distance nat Examples.keep_order
         (Examples.triangle (Some 100%Q)) 1 300%Q (1#10)%Q 0 3)
  ∧ ¬ rejects_eagerly
        (MainCopy.find_top_loops Examples.planar_distance nat Examples.keep_order
           (Examples.triangle (Some 100%Q)) 1 300%Q (1#10)%Q 0 3)
  ∧ Main.find_top_loops Examples.planar_distance nat Examples.keep_order
      (Examples.triangle (Some 100%Q)) 1 300%Q (1#10)%Q 2 0 0%nat
    = (Returned [], 6%nat)
  ∧ MainCopy.find_top_loops Examples.planar_distance nat Examples.keep_order
      (Examples.triangle (Some 100%Q)) 1 300%Q (1#10)%Q 2 0 0%nat
    = (Returned [], 6%nat)
  ∧ Main.find_top_loops Examples.planar_distance nat Examples.keep_order
      (Examples.triangle (Some 100%Q)) 1 (-300)%Q (1#10)%Q 1 3 0%nat
    = (Returned [], 10%nat)
  ∧ MainCopy.find_top_loops Examples.planar_distance nat Examples.keep_order
      (Examples.triangle (Some 100%Q)) 1 (-300)%Q (1#10)%Q 1 3 0%nat
    = (Returned [{| r_score := (-640)%Q; r_path := Examples.one_round;
                    r_dist := 300%Q |}], 3%nat).
Proof.
  split_and!; try (vm_compute; reflexivity).
  - intros H. destruct (H 0%nat) as [e He]. vm_compute in He. discriminate.
  - intros H. destruct (H 0%nat) as [e He]. vm_compute in He. discriminate.
Qed.

(* ===================================================================== *)
(** * More on graph preprocessing *)
(* ===================================================================== *)

(** A decidable closed proposition, settled by evaluation. *)
Ltac by_compute :=
  match goal with
  | |- ?P => apply (bool_decide_unpack P); vm_compute; exact I
  end.

Lemma not_short_length (bound : Q) (d : edge_data) :
  (0 < bound)%Q ->
  ¬ (default 0%Q (d_length d) < bound)%Q ->
  exists l, d_length d = Some l ∧ (bound <= l)%Q.
Proof.
  intros Hpos Hshort. destruct (d_length d) as [l|]; simpl in Hshort.
  - exists l. split; [done|]. by apply Qnot_lt_le.
  - by destruct Hshort.
Qed.

Lemma unique_edge_ids_inj G e e' :
  unique_edge_ids G -> e ∈ g_edges G -> e' ∈ g_edges G ->
  edge_id e = edge_id e' -> e = e'.
Proof.
  unfold unique_edge_ids. intros Hnd He He' Hid.
  apply list_elem_of_lookup in He as [i Hi]. apply list_elem_of_lookup in He' as [j Hj].
  assert (i = j) as ->; [|congruence].
  apply (NoDup_lookup _ i j (edge_id e) Hnd);
    rewrite list_lookup_fmap; [by rewrite Hi | by rewrite Hj, Hid].
Qed.

Lemma remove_edges_from_unique G ebunch :
  unique_edge_ids G -> unique_edge_ids (remove_edges_from G ebunch).
Proof.
  unfold unique_edge_ids. simpl. intros Hnd.
  eapply sublist_NoDup; [exact Hnd|]. apply fmap_sublist, sublist_filter.
Qed.

(** With unique names, removing the edges selected by [P] keeps every other
    edge. *)
Lemma remove_edges_from_keeps (P : edge -> Prop) `{!forall e, Decision (P e)} G e :
  unique_edge_ids G -> e ∈ g_edges G -> ¬ P e ->
  e ∈ g_edges (remove_edges_from G (edge_id <$> filter P (g_edges G))).
Proof.
  intros Hnd He HP. simpl. apply list_elem_of_filter. split; [|done].
  intros Hin. apply list_elem_of_fmap in Hin as (e' & Hid & He').
  apply list_elem_of_filter in He' as [HP' He'].
  by rewrite (unique_edge_ids_inj G e e' Hnd He He' Hid) in HP.
Qed.

(** X1. [preprocess_graph] returns edges of the input only, each with a length
    of at least 7, and in mode ["walk"] none of a bad type; an edge without
    length does not survive. *)
Theorem main_preprocess_graph_sound G mode e :
  e ∈ g_edges (Main.preprocess_graph G mode) ->
  e ∈ g_edges G
  ∧ (exists l, d_length (e_d e) = Some l ∧ (7 <= l)%Q)
  ∧ (mode = "walk"%string -> ¬ Main.bad_highway e).
Proof.
  intros He. destruct (main_preprocess_graph_edges G mode) as [Hs Hb].
  rewrite Forall_forall in Hs. split_and!.
  - unfold Main.preprocess_graph in He.
    destruct (decide _); repeat apply remove_edges_from_subset in He; done.
  - apply not_short_length; [done|]. by apply Hs.
  - intros Hw. specialize (Hb Hw). rewrite Forall_forall in Hb. by apply Hb.
Qed.

Lemma main_preprocess_graph_sound_witness :
  Examples.street 1 2 (Some 100%Q) ∈ g_edges (Examples.triangle (Some 100%Q))
  ∧ (exists l, d_length (e_d (Examples.street 1 2 (Some 100%Q))) = Some l ∧ (7 <= l)%Q)
  ∧ ("walk"%string = "walk"%string -> ¬ Main.bad_highway (Examples.street 1 2 (Some 100%Q))).
Proof.
  apply (main_preprocess_graph_sound (Examples.triangle (Some 100%Q)) "walk").
  vm_compute. left.
Defined.

(** X2. With unique edge names, [preprocess_graph] keeps every edge of at least
    7 m that, in mode ["walk"], is not of a bad type; in another mode the
    type of the edge plays no part. *)
Theorem main_preprocess_graph_complete G mode e :
  unique_edge_ids G ->
  e ∈ g_edges G ->
  ¬ Main.short_edge e ->
  (mode = "walk"%string -> ¬ Main.bad_highway e) ->
  e ∈ g_edges (Main.preprocess_graph G mode).
Proof.
  intros Hnd He Hs Hb. unfold Main.preprocess_graph.
  pose proof (remove_edges_from_keeps Main.short_edge G e Hnd He Hs) as H1.
  destruct (decide (mode = "walk"%string)) as [Hw|Hw]; [|done].
  apply remove_edges_from_keeps; [by apply remove_edges_from_unique|done|by apply Hb].
Qed.

Lemma main_preprocess_graph_complete_witness :
  Examples.street 1 2 (Some 100%Q)
  ∈ g_edges (Main.preprocess_graph (Examples.triangle (Some 100%Q)) "walk").
Proof.
  apply main_preprocess_graph_complete.
  - by_compute.
  - vm_compute. left.
  - vm_compute. discriminate.
  - intros _. vm_compute. tauto.
Defined.

Lemma copy_preprocess_walk_graph_edges G :
  g_edges (MainCopy.preprocess_walk_graph G)
  = g_edges (remove_edges_from G (g_edges G ≫= MainCopy.to_remove)).
Proof. unfold MainCopy.preprocess_walk_graph. apply remove_isolates_edges. Qed.

(** What [preprocess_walk_graph] lets through. *)
Lemma copy_kept_edge G e :
  e ∈ g_edges (MainCopy.preprocess_walk_graph G) ->
  e ∈ g_edges G
  ∧ (exists l, d_length (e_d e) = Some l ∧ (5 <= l)%Q)
  ∧ ¬ MainCopy.bad_highway e.
Proof.
  rewrite copy_preprocess_walk_graph_edges. intros He.
  pose proof (remove_edges_from_clears
                (fun e => MainCopy.bad_highway e ∨ MainCopy.short_edge e) G
                (g_edges G ≫= MainCopy.to_remove) (copy_selected G)) as Hclear.
  rewrite Forall_forall in Hclear. specialize (Hclear e He).
  split_and!.
  - by apply remove_edges_from_subset in He.
  - apply not_short_length; [done|]. tauto.
  - tauto.
Qed.

(** X3. [preprocess_walk_graph] returns edges of the input only, each with a
    length of at least 5 and none of a bad type. *)
Theorem copy_preprocess_walk_graph_sound G e :
  e ∈ g_edges (MainCopy.preprocess_walk_graph G) ->
  e ∈ g_edges G
  ∧ (exists l, d_length (e_d e) = Some l ∧ (5 <= l)%Q)
  ∧ ¬ MainCopy.bad_highway e.
Proof. apply copy_kept_edge. Qed.

Lemma copy_preprocess_walk_graph_sound_witness :
  Examples.street 1 2 (Some 100%Q) ∈ g_edges (Examples.triangle (Some 100%Q))
  ∧ (exists l, d_length (e_d (Examples.street 1 2 (Some 100%Q))) = Some l ∧ (5 <= l)%Q)
  ∧ ¬ MainCopy.bad_highway (Examples.street 1 2 (Some 100%Q)).
Proof.
  apply (copy_preprocess_walk_graph_sound (Examples.triangle (Some 100%Q))).
  vm_compute. left.
Defined.

(** X4. With unique edge names, [preprocess_walk_graph] keeps every edge of at
    least 5 m that is not of a bad type. *)
Theorem copy_preprocess_walk_graph_complete G e :
  unique_edge_ids G ->
  e ∈ g_edges G ->
  ¬ MainCopy.short_edge e ->
  ¬ MainCopy.bad_highway e ->
  e ∈ g_edges (MainCopy.preprocess_walk_graph G).
Proof.
  intros Hnd He Hs Hb. rewrite copy_preprocess_walk_graph_edges. simpl.
  apply list_elem_of_filter. split; [|done].
  intros Hin. apply list_elem_of_bind in Hin as (e' & Hid & He').
  assert (Hsel : MainCopy.bad_highway e' ∨ MainCopy.short_edge e').
  { unfold MainCopy.to_remove in Hid. apply elem_of_app in Hid as [Hid|Hid];
      destruct (decide _) as [?|?]; try (by apply not_elem_of_nil in Hid); tauto. }
  assert (Hsame : edge_id e = edge_id e').
  { unfold MainCopy.to_remove in Hid. apply elem_of_app in Hid as [Hid|Hid];
      destruct (decide _) as [?|?]; try (by apply not_elem_of_nil in Hid);
      by apply list_elem_of_singleton in Hid. }
  rewrite <- (unique_edge_ids_inj G e e' Hnd He He' Hsame) in Hsel. tauto.
Qed.

Lemma copy_preprocess_walk_graph_complete_witness :
  Examples.street 1 2 (Some 100%Q)
  ∈ g_edges (MainCopy.preprocess_walk_graph (Examples.triangle (Some 100%Q))).
Proof.
  apply copy_preprocess_walk_graph_complete.
  - by_compute.
  - vm_compute. left.
  - vm_compute. discriminate.
  - vm_compute. tauto.
Defined.

(** The node table after [preprocess_walk_graph]. *)
Lemma copy_kept_node G n yx :
  g_nodes (MainCopy.preprocess_walk_graph G) !! n = Some yx
  <-> g_nodes G !! n = Some yx
      ∧ exists e, e ∈ g_edges (MainCopy.preprocess_walk_graph G) ∧ incident n e.
Proof.
  split.
  - intros Hn. split.
    + unfold MainCopy.preprocess_walk_graph in Hn. simpl in Hn.
      by apply map_lookup_filter_Some in Hn as [Hn _].
    + apply copy_preprocess_walk_graph_incident. by eexists.
  - intros [Hn (e & He & Hinc)].
    rewrite copy_preprocess_walk_graph_edges in He.
    unfold MainCopy.preprocess_walk_graph. simpl.
    apply map_lookup_filter_Some. split; [done|]. simpl.
    by apply (incident_not_isolate _ n e).
Qed.

(** X5. The nodes that [preprocess_walk_graph] keeps are the nodes of the input
    that are an end of an edge it keeps, with their coordinates. *)
Theorem copy_preprocess_walk_graph_nodes G n yx :
  g_nodes (MainCopy.preprocess_walk_graph G) !! n = Some yx
  <-> g_nodes G !! n = Some yx
      ∧ exists e, e ∈ g_edges (MainCopy.preprocess_walk_graph G) ∧ incident n e.
Proof. apply copy_kept_node. Qed.

Lemma remove_edges_from_well_formed G ebunch :
  well_formed G -> well_formed (remove_edges_from G ebunch).
Proof.
  unfold well_formed. rewrite !Forall_forall. intros Hwf e He.
  apply Hwf. by apply remove_edges_from_subset in He.
Qed.

(** X6. Cleaning keeps the graph well formed: the ends of the edges that are
    left are nodes that are left, in both scripts. *)
Theorem clean_well_formed G :
  well_formed G ->
  (forall mode, well_formed (Main.preprocess_graph G mode))
  ∧ well_formed (MainCopy.preprocess_walk_graph G).
Proof.
  intros Hwf. split.
  - intros mode. unfold Main.preprocess_graph.
    destruct (decide _); repeat apply remove_edges_from_well_formed; done.
  - unfold well_formed. apply Forall_forall. intros e He.
    assert (Hends : forall n, incident n e ->
              is_Some (g_nodes G !! n) ->
              is_Some (g_nodes (MainCopy.preprocess_walk_graph G) !! n)).
    { intros n Hinc [yx Hn]. exists yx.
      apply copy_kept_node. split; [done|]. by exists e. }
    apply copy_kept_edge in He as [He _].
    unfold well_formed in Hwf. rewrite Forall_forall in Hwf.
    destruct (Hwf e He) as [Hu Hv].
    split; apply Hends; [by left | done | by right | done].
Qed.

Lemma clean_well_formed_witness :
  (forall mode, well_formed (Main.preprocess_graph Examples.short_street mode))
  ∧ well_formed (MainCopy.preprocess_walk_graph Examples.short_street).
Proof.
  apply clean_well_formed. by_compute.
Defined.

(* ===================================================================== *)
(** * More on the score *)
(* ===================================================================== *)

Section Difference.

Context `{Countable K}.
Implicit Types (x : K) (X D : gset K).

Lemma difference_seen x X D : x ∈ D -> ({[x]} ∪ X) ∖ D = X ∖ ({[x]} ∪ D).
Proof.
  intros Hx. apply set_eq. intros y.
  rewrite !elem_of_difference, !elem_of_union, !elem_of_singleton.
  destruct (decide (y = x)) as [->|]; tauto.
Qed.

Lemma difference_new x X D : x ∉ D -> ({[x]} ∪ X) ∖ D = {[x]} ∪ X ∖ ({[x]} ∪ D).
Proof.
  intros Hx. apply set_eq. intros y.
  rewrite !elem_of_union, !elem_of_difference, !elem_of_union, !elem_of_singleton.
  destruct (decide (y = x)) as [->|]; tauto.
Qed.

Lemma size_difference_new x X D :
  x ∉ D -> size (({[x]} ∪ X) ∖ D) = S (size (X ∖ ({[x]} ∪ D))).
Proof.
  intros Hx. rewrite (difference_new x X D Hx), size_union, size_singleton; [done|].
  intros y. rewrite elem_of_singleton, elem_of_difference, elem_of_union, elem_of_singleton.
  tauto.
Qed.

Lemma difference_nil D : (∅ ∖ D : gset K) = ∅.
Proof.
  apply set_eq. intros y. rewrite elem_of_difference.
  split; [tauto|]. intros Hy. by apply not_elem_of_empty in Hy.
Qed.

Lemma difference_none X : X ∖ (∅ : gset K) = X.
Proof.
  apply set_eq. intros y. rewrite elem_of_difference.
  split; [tauto|]. intros Hy. split; [done|]. apply not_elem_of_empty.
Qed.

End Difference.

(** The scan of [score_path], from any index, dictionary and count: every
    node it counts is a node already in [last_seen], a repeated one. *)
Lemma subloop_scan_bounds window path :
  forall i (last_seen : gmap node Z) subloops,
    subloops ≤ subloop_scan window i last_seen subloops path
    ∧ subloop_scan window i last_seen subloops path
      ≤ subloops + Z.of_nat (length path)
        - Z.of_nat (size (list_to_set path ∖ dom last_seen : gset node)).
Proof.
  induction path as [|x rest IH]; intros i m s; simpl.
  { rewrite difference_nil, size_empty. lia. }
  destruct (m !! x) as [j|] eqn:Hx.
  - assert (Hdom : x ∈ dom m) by (apply elem_of_dom; eauto).
    set (s' := if decide (i - j < window) then s + 1 else s).
    assert (Hs' : s ≤ s' ≤ s + 1) by (unfold s'; destruct (decide _); lia).
    destruct (IH (i + 1) (<[x:=i]> m) s') as [Hlo Hhi].
    rewrite dom_insert_L in *. rewrite (difference_seen _ _ _ Hdom). lia.
  - assert (Hdom : x ∉ dom m) by (by apply not_elem_of_dom).
    destruct (IH (i + 1) (<[x:=i]> m) s) as [Hlo Hhi].
    rewrite dom_insert_L in *. rewrite (size_difference_new _ _ _ Hdom). lia.
Qed.

(** When the whole path fits in the window, every repeated node counts. *)
Lemma subloop_scan_within window path :
  forall i (last_seen : gmap node Z) subloops,
    Z.of_nat (length path) ≤ window ->
    (forall x j, last_seen !! x = Some j -> i + Z.of_nat (length path) - j ≤ window) ->
    subloop_scan window i last_seen subloops path
    = subloops + Z.of_nat (length path)
      - Z.of_nat (size (list_to_set path ∖ dom last_seen : gset node)).
Proof.
  induction path as [|x rest IH]; intros i m s Hlen Hm; simpl.
  { rewrite difference_nil, size_empty. lia. }
  simpl in Hlen, Hm.
  assert (Hnext : forall y j, <[x:=i]> m !! y = Some j ->
                    i + 1 + Z.of_nat (length rest) - j ≤ window).
  { intros y j Hy. destruct (decide (x = y)) as [->|Hne].
    - rewrite lookup_insert_eq in Hy. injection Hy as <-. lia.
    - rewrite lookup_insert_ne in Hy by done. specialize (Hm y j Hy). lia. }
  destruct (m !! x) as [j|] eqn:Hx.
  - assert (Hdom : x ∈ dom m) by (apply elem_of_dom; eauto).
    specialize (Hm x j Hx). rewrite decide_True by lia.
    rewrite (IH (i + 1) (<[x:=i]> m) (s + 1)) by (done || lia).
    rewrite dom_insert_L in *. rewrite (difference_seen _ _ _ Hdom). lia.
  - assert (Hdom : x ∉ dom m) by (by apply not_elem_of_dom).
    rewrite (IH (i + 1) (<[x:=i]> m) s) by (done || lia).
    rewrite dom_insert_L in *. rewrite (size_difference_new _ _ _ Hdom). lia.
Qed.

Lemma difference_empty_dom (path : list node) :
  (list_to_set path ∖ dom (∅ : gmap node Z) : gset node) = list_to_set path.
Proof. rewrite dom_empty_L. apply difference_none. Qed.

(** The range of the scan from the start of a path. *)
Lemma subloop_scan_range window path :
  0 ≤ subloop_scan window 0 ∅ 0 path
  ∧ subloop_scan window 0 ∅ 0 path
    ≤ Z.of_nat (length path) - Z.of_nat (len_set path).
Proof.
  destruct (subloop_scan_bounds window path 0 ∅ 0) as [Hlo Hhi].
  rewrite difference_empty_dom in Hhi. unfold len_set. lia.
Qed.

(** X7. The short subloops that [score_path] counts, with any window, are
    between 0 and the number of repeated nodes,
    [len(path) - len(set(path))]. *)
Theorem subloops_at_most_repeats window path :
  0 ≤ subloop_scan window 0 ∅ 0 path
  ∧ subloop_scan window 0 ∅ 0 path
    ≤ Z.of_nat (length path) - Z.of_nat (len_set path).
Proof. apply subloop_scan_range. Qed.

(** In a path no longer than the window every repeated node is a short
    subloop: the two counts of [score_path] are equal. *)
Theorem subloops_of_short_path window path :
  Z.of_nat (length path) ≤ window ->
  subloop_scan window 0 ∅ 0 path
  = Z.of_nat (length path) - Z.of_nat (len_set path).
Proof.
  intros Hlen. rewrite subloop_scan_within; [| done |].
  - rewrite difference_empty_dom. unfold len_set. lia.
  - intros x j Hx. by rewrite lookup_empty in Hx.
Qed.

Lemma subloops_of_short_path_witness :
  subloop_scan 20 0 ∅ 0 Examples.three_rounds
  = Z.of_nat (length Examples.three_rounds) - Z.of_nat (len_set Examples.three_rounds).
Proof. apply subloops_of_short_path. vm_compute. discriminate. Defined.

Lemma inject_Z_nonneg_mult (a w : Z) : 0 ≤ a -> 0 ≤ w -> (0 <= inject_Z (a * w))%Q.
Proof. intros Ha Hw. change 0%Q with (inject_Z 0). rewrite <- Zle_Qle. nia. Qed.

Lemma repeated_edges_nonneg tally : 0 ≤ MainCopy.repeated_edges tally.
Proof. unfold MainCopy.repeated_edges. lia. Qed.

(** X8. No score exceeds the reward for the distinct nodes,
    [10 * len(set(path))]: the other components only subtract. *)
Theorem score_at_most_reward path d t tally :
  (Main.score_path path d t <= inject_Z (Z.of_nat (len_set path) * 10))%Q
  ∧ (MainCopy.score_path path d t tally <= inject_Z (Z.of_nat (len_set path) * 10))%Q.
Proof.
  pose proof (Qabs_nonneg (d - t)) as Habs.
  split.
  - destruct (subloop_scan_range 20 path) as [Hs Hr].
    unfold Main.score_path. cbv zeta.
    pose proof (inject_Z_nonneg_mult
                  (Z.of_nat (length path) - Z.of_nat (len_set path)) 20) as H1.
    pose proof (inject_Z_nonneg_mult (subloop_scan 20 0 ∅ 0 path) 25) as H2.
    specialize (H1 ltac:(lia) ltac:(lia)). specialize (H2 ltac:(lia) ltac:(lia)).
    lra.
  - destruct (subloop_scan_range 30 path) as [Hs Hr].
    unfold MainCopy.score_path. cbv zeta.
    pose proof (inject_Z_nonneg_mult
                  (Z.of_nat (length path) - Z.of_nat (len_set path)) 40) as H1.
    pose proof (inject_Z_nonneg_mult (subloop_scan 30 0 ∅ 0 path) 30) as H2.
    pose proof (inject_Z_nonneg_mult (MainCopy.repeated_edges tally) 20
                  (repeated_edges_nonneg tally)) as H3.
    specialize (H1 ltac:(lia) ltac:(lia)). specialize (H2 ltac:(lia) ltac:(lia)).
    specialize (H3 ltac:(lia)). lra.
Qed.

(** X9. A path without a repeated node whose distance is the target scores
    exactly [10 * len(path)]; in [main copy.py] when no edge of the tally
    was taken twice. *)
Theorem score_of_exact_simple_path path d t :
  NoDup path -> (d == t)%Q ->
  (Main.score_path path d t == inject_Z (Z.of_nat (length path) * 10))%Q
  ∧ (forall tally, MainCopy.repeated_edges tally = 0 ->
       (MainCopy.score_path path d t tally
        == inject_Z (Z.of_nat (length path) * 10))%Q).
Proof.
  intros Hnd Hd.
  assert (Hu : len_set path = length path) by (by apply size_list_to_set).
  assert (Habs : (Qabs (d - t) == 0)%Q).
  { assert (H0 : (d - t == 0)%Q) by (rewrite Hd; ring). by rewrite H0. }
  split.
  - destruct (subloop_scan_range 20 path) as [Hs Hr].
    unfold Main.score_path. cbv zeta. rewrite Hu in *.
    replace (subloop_scan 20 0 ∅ 0 path) with 0 by lia.
    rewrite Z.sub_diag, !Z.mul_0_l. change (inject_Z 0) with 0%Q. lra.
  - intros tally He. destruct (subloop_scan_range 30 path) as [Hs Hr].
    unfold MainCopy.score_path. cbv zeta. rewrite Hu in *. rewrite He.
    replace (subloop_scan 30 0 ∅ 0 path) with 0 by lia.
    rewrite Z.sub_diag, !Z.mul_0_l. change (inject_Z 0) with 0%Q. lra.
Qed.

Lemma score_of_exact_simple_path_witness :
  (Main.score_path [1%Z; 2%Z; 3%Z] 200 200 == inject_Z (Z.of_nat (length [1%Z; 2%Z; 3%Z]) * 10))%Q
  ∧ (forall tally, MainCopy.repeated_edges tally = 0%Z ->
       (MainCopy.score_path [1%Z; 2%Z; 3%Z] 200 200 tally
        == inject_Z (Z.of_nat (length [1%Z; 2%Z; 3%Z]) * 10))%Q).
Proof.
  apply score_of_exact_simple_path.
  - by_compute.
  - reflexivity.
Defined.

(** X10. In a path that fits in the subloop window the two penalties add up:
    each repeated node costs 45 in [main.py] (paths of at most 20 nodes) and
    70 in [main copy.py] (at most 30 nodes). *)
Theorem score_of_short_path path d t tally :
  (Z.of_nat (length path) ≤ 20 ->
   (Main.score_path path d t ==
    - Qabs (d - t) + inject_Z (Z.of_nat (len_set path) * 10)
    - inject_Z ((Z.of_nat (length path) - Z.of_nat (len_set path)) * 45))%Q)
  ∧ (Z.of_nat (length path) ≤ 30 ->
     (MainCopy.score_path path d t tally ==
      - Qabs (d - t) + inject_Z (Z.of_nat (len_set path) * 10)
      - inject_Z ((Z.of_nat (length path) - Z.of_nat (len_set path)) * 70)
      - inject_Z (MainCopy.repeated_edges tally * 20))%Q).
Proof.
  split; intros Hlen.
  - unfold Main.score_path. cbv zeta. rewrite (subloops_of_short_path 20 path Hlen).
    replace ((Z.of_nat (length path) - Z.of_nat (len_set path)) * 45)
      with ((Z.of_nat (length path) - Z.of_nat (len_set path)) * 20
            + (Z.of_nat (length path) - Z.of_nat (len_set path)) * 25) by lia.
    rewrite inject_Z_plus. ring.
  - unfold MainCopy.score_path. cbv zeta. rewrite (subloops_of_short_path 30 path Hlen).
    replace ((Z.of_nat (length path) - Z.of_nat (len_set path)) * 70)
      with ((Z.of_nat (length path) - Z.of_nat (len_set path)) * 40
            + (Z.of_nat (length path) - Z.of_nat (len_set path)) * 30) by lia.
    rewrite inject_Z_plus. ring.
Qed.

Lemma score_of_short_path_witness :
  (Main.score_path Examples.three_rounds 900 900 ==
   - Qabs (900 - 900) + inject_Z (Z.of_nat (len_set Examples.three_rounds) * 10)
   - inject_Z ((Z.of_nat (length Examples.three_rounds)
                - Z.of_nat (len_set Examples.three_rounds)) * 45))%Q.
Proof.
  apply (proj1 (score_of_short_path Examples.three_rounds 900 900 ∅)).
  vm_compute. discriminate.
Defined.

(** X11. The score looks at the distance through [abs(dist - target_dist)] only:
    a distance as far above the target as another is below scores the same,
    and of two distances the closer to the target scores strictly higher;
    in both scripts. *)
Theorem closer_distance_scores_higher path t tally :
  (forall delta,
     (Main.score_path path (t + delta) t == Main.score_path path (t - delta) t)%Q
     ∧ (MainCopy.score_path path (t + delta) t tally
        == MainCopy.score_path path (t - delta) t tally)%Q)
  ∧ (forall d1 d2,
       (Qabs (d1 - t) < Qabs (d2 - t))%Q ->
       (Main.score_path path d2 t < Main.score_path path d1 t)%Q
       ∧ (MainCopy.score_path path d2 t tally < MainCopy.score_path path d1 t tally)%Q).
Proof.
  split.
  - intros delta.
    assert (Habs : (Qabs (t + delta - t) == Qabs (t - delta - t))%Q).
    { assert (H1 : (t + delta - t == delta)%Q) by ring.
      assert (H2 : (t - delta - t == - delta)%Q) by ring.
      rewrite H1, H2. symmetry. apply Qabs_opp. }
    unfold Main.score_path, MainCopy.score_path. cbv zeta. by rewrite Habs.
  - intros d1 d2 Hlt. unfold Main.score_path, MainCopy.score_path. cbv zeta.
    split; lra.
Qed.

Lemma closer_distance_scores_higher_witness :
  (Main.score_path Examples.one_round 500 300 < Main.score_path Examples.one_round 200 300)%Q
  ∧ (MainCopy.score_path Examples.one_round 500 300 ∅
     < MainCopy.score_path Examples.one_round 200 300 ∅)%Q.
Proof.
  apply (proj2 (closer_distance_scores_higher Examples.one_round 300 ∅)).
  vm_compute. reflexivity.
Defined.

(* ===================================================================== *)
(** * More on the walk *)
(* ===================================================================== *)

(** The length that the [try] block finds belongs to an edge of the graph
    between the two nodes. *)
Lemma edge_len_edge G u v l :
  edge_len G u v = Some l ->
  exists e, e ∈ g_edges G ∧ e_u e = u ∧ e_v e = v.
Proof.
  unfold edge_len, get_edge_data. intros Hl.
  destruct (filter (fun e => e_u e = u ∧ e_v e = v) (g_edges G)) as [|e es] eqn:Hf;
    [discriminate|].
  assert (He : e ∈ filter (fun e => e_u e = u ∧ e_v e = v) (g_edges G))
    by (rewrite Hf; left).
  apply list_elem_of_filter in He as [[Hu Hv] He]. by exists e.
Qed.

Lemma follows_edges_snoc G path n x :
  follows_edges G path -> last path = Some n ->
  (exists e, e ∈ g_edges G ∧ e_u e = n ∧ e_v e = x) ->
  follows_edges G (path ++ [x]).
Proof.
  intros Hf Hlast He i u v Hu Hv.
  assert (Hlen : (i + 1 < length (path ++ [x]))%nat) by (eapply lookup_lt_Some; eauto).
  rewrite length_app in Hlen; simpl in Hlen.
  rewrite lookup_app_l in Hu by lia.
  destruct (decide (i + 1 < length path)%nat) as [Hlt|Hge].
  - rewrite lookup_app_l in Hv by lia. by eapply Hf.
  - rewrite lookup_app_r in Hv by lia.
    replace (i + 1 - length path)%nat with 0%nat in Hv by lia.
    simpl in Hv. injection Hv as <-.
    rewrite last_lookup in Hlast.
    replace (Nat.pred (length path)) with i in Hlast by lia.
    rewrite Hu in Hlast. injection Hlast as ->. exact He.
Qed.

Lemma path_length_snoc G path u x l :
  last path = Some u -> edge_len G u x = Some l ->
  (path_length G (path ++ [x]) == path_length G path + l)%Q.
Proof.
  intros Hlast Hl. unfold path_length.
  rewrite (traversals_snoc _ _ _ Hlast), fmap_app. simpl. rewrite Hl. simpl.
  generalize ((fun uv : node * node => default 0%Q (edge_len G uv.1 uv.2))
                <$> traversals path).
  intros qs. induction qs as [|q qs IH]; simpl; [ring|]. rewrite IH. ring.
Qed.

Section WalkAlongFacts.

Context {E : Type}.

Lemma move_preserves_along G start (st st' : walk_state E) neighbor l :
  walk_along G start st -> move G st st' neighbor l -> walk_along G start st'.
Proof.
  intros [Hinv Hedges Hdist Hnode] Hmove.
  pose proof (move_edge _ _ _ _ _ Hmove) as Hl.
  pose proof (edge_len_edge _ _ _ _ Hl) as He.
  pose proof (inv_last _ _ Hinv) as Hlast.
  split.
  - by eapply move_preserves_inv.
  - rewrite (move_path _ _ _ _ _ Hmove). by eapply follows_edges_snoc.
  - rewrite (move_path _ _ _ _ _ Hmove), (move_dist _ _ _ _ _ Hmove).
    rewrite (path_length_snoc _ _ _ _ _ Hlast Hl). by rewrite Hdist.
  - intros Hstart Hwf. rewrite (move_cur _ _ _ _ _ Hmove).
    destruct He as (e & He & _ & <-).
    unfold well_formed in Hwf. rewrite Forall_forall in Hwf. by apply Hwf.
Qed.

End WalkAlongFacts.

Lemma walk_along_initial {E} G start (st : walk_state E) :
  walk_inv start st -> path st = [start] -> dist st = 0%Q -> cur st = start ->
  walk_along G start st.
Proof.
  intros Hinv Hp Hd Hc. split; [done | | | ].
  - rewrite Hp. intros i u v Hu Hv. apply lookup_lt_Some in Hv. simpl in Hv. lia.
  - rewrite Hp, Hd. reflexivity.
  - intros Hs _. by rewrite Hc.
Qed.

Lemma successors_node G u :
  is_Some (g_nodes G !! u) -> exists ns, successors G u = Returned ns.
Proof. unfold successors. intros [yx ->]. by eexists. Qed.

Lemma main_is_close_returns great_circle G n start threshold_m :
  is_Some (g_nodes G !! n) -> is_Some (g_nodes G !! start) ->
  exists b, Main.is_close_to_start great_circle G n start threshold_m = Returned b.
Proof.
  unfold Main.is_close_to_start, coords. intros [[y1 x1] ->] [[y0 x0] ->].
  simpl. by eexists.
Qed.

Lemma copy_is_close_returns great_circle G n start threshold_m :
  is_Some (g_nodes G !! n) -> is_Some (g_nodes G !! start) ->
  exists b, MainCopy.is_close_to_start great_circle G n start threshold_m = Returned b.
Proof.
  unfold MainCopy.is_close_to_start, coords. intros [[y1 x1] ->] [[y0 x0] ->].
  simpl. by eexists.
Qed.

Section WalkMore.

Variable great_circle : Q -> Q -> Q -> Q -> Q.
Variable rng : Type.
Variable shuffle : rng -> list node -> list node * rng.

(** The candidate that [walk] returns is the state after a move. *)
Lemma main_walk_along G start target_dist margin remaining st g c g' :
  Main.walk great_circle rng shuffle G start target_dist margin remaining st g
  = (Returned (Some c), g') ->
  walk_along G start st ->
  exists (st0 st' : Main.state) neighbor l,
    walk_along G start st0 ∧ move G st0 st' neighbor l
    ∧ c_path c = path st' ∧ c_dist c = dist st'.
Proof.
  revert st g. induction remaining as [|r IH]; intros st g Hwalk Hinv;
    simpl in Hwalk; [discriminate|].
  destruct (successors G (cur st)) as [nbrs|e]; [|discriminate].
  destruct (shuffle g nbrs) as [nbrs' g1].
  destruct (Main.scan G st nbrs') as [st1|] eqn:Hscan; [|discriminate].
  apply main_scan_move in Hscan as (nb & l & _ & Hmove).
  pose proof (move_preserves_along _ _ _ _ _ _ Hinv Hmove) as Hinv1.
  destruct (decide _) as [Hband|Hband]; [|by eapply IH].
  destruct (Main.is_close_to_start _ _ _ _ _) as [[|]|e];
    [| by eapply IH | discriminate].
  injection Hwalk as <- <-. by exists st, st1, nb, l.
Qed.

Lemma copy_walk_along G start target_dist margin remaining st g c g' :
  MainCopy.walk great_circle rng shuffle G start target_dist margin remaining st g
  = (Returned (Some c), g') ->
  walk_along G start st ->
  exists (st0 st' : MainCopy.state) neighbor l,
    walk_along G start st0 ∧ move G st0 st' neighbor l
    ∧ c_path c = path st' ∧ c_dist c = dist st'.
Proof.
  revert st g. induction remaining as [|r IH]; intros st g Hwalk Hinv;
    simpl in Hwalk; [discriminate|].
  destruct (successors G (cur st)) as [nbrs|e]; [|discriminate].
  destruct (shuffle g nbrs) as [nbrs' g1].
  destruct (MainCopy.scan G st nbrs') as [st1|] eqn:Hscan; [|discriminate].
  apply copy_scan_move in Hscan as (nb & l & _ & Hmove).
  pose proof (move_preserves_along _ _ _ _ _ _ Hinv Hmove) as Hinv1.
  destruct (decide _) as [Hband|Hband]; [|by eapply IH].
  destruct (MainCopy.is_close_to_start _ _ _ _ _) as [[|]|e];
    [| by eapply IH | discriminate].
  injection Hwalk as <- <-. by exists st, st1, nb, l.
Qed.

(** On a well-formed graph, from a state at a node of the graph, [walk]
    raises nothing. *)
Lemma main_walk_no_raise G start target_dist margin remaining st g :
  well_formed G -> is_Some (g_nodes G !! start) ->
  walk_along G start st ->
  exists r g',
    Main.walk great_circle rng shuffle G start target_dist margin remaining st g
    = (Returned r, g').
Proof.
  intros Hwf Hstart. revert st g.
  induction remaining as [|r IH]; intros st g Hinv; simpl; [by eexists _, _|].
  destruct (successors_node G (cur st)) as [nbrs ->];
    [by apply (along_node _ _ _ Hinv)|].
  destruct (shuffle g nbrs) as [nbrs' g1].
  destruct (Main.scan G st nbrs') as [st1|] eqn:Hscan; [|by eexists _, _].
  apply main_scan_move in Hscan as (nb & l & _ & Hmove).
  pose proof (move_preserves_along _ _ _ _ _ _ Hinv Hmove) as Hinv1.
  destruct (decide _) as [Hband|Hband]; [|by apply IH].
  destruct (main_is_close_returns great_circle G (cur st1) start 50) as [b ->];
    [by apply (along_node _ _ _ Hinv1) | done |].
  destruct b; [by eexists _, _ | by apply IH].
Qed.

Lemma copy_walk_no_raise G start target_dist margin remaining st g :
  well_formed G -> is_Some (g_nodes G !! start) ->
  walk_along G start st ->
  exists r g',
    MainCopy.walk great_circle rng shuffle G start target_dist margin remaining st g
    = (Returned r, g').
Proof.
  intros Hwf Hstart. revert st g.
  induction remaining as [|r IH]; intros st g Hinv; simpl; [by eexists _, _|].
  destruct (successors_node G (cur st)) as [nbrs ->];
    [by apply (along_node _ _ _ Hinv)|].
  destruct (shuffle g nbrs) as [nbrs' g1].
  destruct (MainCopy.scan G st nbrs') as [st1|] eqn:Hscan; [|by eexists _, _].
  apply copy_scan_move in Hscan as (nb & l & _ & Hmove).
  pose proof (move_preserves_along _ _ _ _ _ _ Hinv Hmove) as Hinv1.
  destruct (decide _) as [Hband|Hband]; [|by apply IH].
  destruct (copy_is_close_returns great_circle G (cur st1) start 100) as [b ->];
    [by apply (along_node _ _ _ Hinv1) | done |].
  destruct b; [by eexists _, _ | by apply IH].
Qed.

End WalkMore.

Lemma main_initial_along G start : walk_along G start (Main.initial start).
Proof. apply walk_along_initial; [apply main_initial_inv | done..]. Qed.

Lemma copy_initial_along G start : walk_along G start (MainCopy.initial start).
Proof. apply walk_along_initial; [apply copy_initial_inv | done..]. Qed.

Lemma move_path_facts {E} G start (st0 st' : walk_state E) neighbor l :
  walk_along G start st0 -> move G st0 st' neighbor l ->
  head (path st') = Some start ∧ (2 ≤ length (path st'))%nat
  ∧ follows_edges G (path st')
  ∧ (dist st' == path_length G (path st'))%Q.
Proof.
  intros Hinv Hmove.
  pose proof (move_preserves_along _ _ _ _ _ _ Hinv Hmove) as [Hinv' He Hd _].
  split_and!; [apply (inv_head _ _ Hinv') | | done..].
  rewrite (move_path _ _ _ _ _ Hmove), length_app. simpl.
  pose proof (inv_head _ _ (along_inv _ _ _ Hinv)) as Hhead.
  destruct (path st0); [discriminate|]. simpl. lia.
Qed.

(** X12. A path returned by [random_loop], in either script, starts at [start],
    has at least two nodes, and goes from node to node along edges of the
    graph, each taken from its tail to its head. *)
Theorem returned_path_follows_edges
    great_circle rng shuffle G start target_dist margin max_steps i g c g' :
  Main.random_loop great_circle rng shuffle G start target_dist margin max_steps i g
    = (Returned (Some c), g')
  ∨ MainCopy.random_loop great_circle rng shuffle G start target_dist margin max_steps i g
    = (Returned (Some c), g') ->
  head (c_path c) = Some start
  ∧ (2 ≤ length (c_path c))%nat
  ∧ follows_edges G (c_path c).
Proof.
  intros [H|H].
  - apply main_walk_along in H as (st0 & st' & nb & l & Hinv & Hmove & -> & _);
      [|apply main_initial_along].
    destruct (move_path_facts _ _ _ _ _ _ Hinv Hmove) as (? & ? & ? & _). done.
  - apply copy_walk_along in H as (st0 & st' & nb & l & Hinv & Hmove & -> & _);
      [|apply copy_initial_along].
    destruct (move_path_facts _ _ _ _ _ _ Hinv Hmove) as (? & ? & ? & _). done.
Qed.

Lemma returned_path_follows_edges_witness :
  head Examples.one_round = Some 1
  ∧ (2 ≤ length Examples.one_round)%nat
  ∧ follows_edges (Examples.triangle (Some 100%Q)) Examples.one_round.
Proof.
  apply (returned_path_follows_edges Examples.planar_distance nat Examples.keep_order
           (Examples.triangle (Some 100%Q)) 1 300%Q (1#10)%Q 120 1 0%nat
           {| c_path := Examples.one_round; c_dist := 300%Q; c_score := (-15)%Q |}
           3%nat).
  left. vm_compute. reflexivity.
Defined.

(** X13. The distance of a candidate returned by [random_loop], in either
    script, is the sum over the traversals of its path of the length of the
    first parallel edge, 1 for an edge without length. *)
Theorem returned_distance_is_path_length
    great_circle rng shuffle G start target_dist margin max_steps i g c g' :
  Main.random_loop great_circle rng shuffle G start target_dist margin max_steps i g
    = (Returned (Some c), g')
  ∨ MainCopy.random_loop great_circle rng shuffle G start target_dist margin max_steps i g
    = (Returned (Some c), g') ->
  (c_dist c == path_length G (c_path c))%Q.
Proof.
  intros [H|H].
  - apply main_walk_along in H as (st0 & st' & nb & l & Hinv & Hmove & -> & ->);
      [|apply main_initial_along].
    by destruct (move_path_facts _ _ _ _ _ _ Hinv Hmove) as (_ & _ & _ & ?).
  - apply copy_walk_along in H as (st0 & st' & nb & l & Hinv & Hmove & -> & ->);
      [|apply copy_initial_along].
    by destruct (move_path_facts _ _ _ _ _ _ Hinv Hmove) as (_ & _ & _ & ?).
Qed.

Lemma returned_distance_is_path_length_witness :
  (300 == path_length (Examples.triangle (Some 100%Q)) Examples.one_round)%Q.
Proof.
  apply (returned_distance_is_path_length Examples.planar_distance nat
           Examples.keep_order (Examples.triangle (Some 100%Q)) 1 300%Q (1#10)%Q
           120 1 0%nat
           {| c_path := Examples.one_round; c_dist := 300%Q; c_score := (-15)%Q |}
           3%nat).
  left. vm_compute. reflexivity.
Defined.

(** X14. On a well-formed graph that holds [start], [random_loop] raises no
    exception, in either script. *)
Theorem random_loop_no_raise
    great_circle rng shuffle G start target_dist margin max_steps i g :
  well_formed G -> is_Some (g_nodes G !! start) ->
  (exists r g',
     Main.random_loop great_circle rng shuffle G start target_dist margin max_steps i g
     = (Returned r, g'))
  ∧ (exists r g',
       MainCopy.random_loop great_circle rng shuffle G start target_dist margin
         max_steps i g
       = (Returned r, g')).
Proof.
  intros Hwf Hstart. split.
  - apply main_walk_no_raise; [done..|apply main_initial_along].
  - apply copy_walk_no_raise; [done..|apply copy_initial_along].
Qed.

Lemma random_loop_no_raise_witness :
  (exists r g',
     Main.random_loop Examples.planar_distance nat Examples.keep_order
       Examples.two_triangles 1 300%Q (1#10)%Q 120 1 0%nat = (Returned r, g'))
  ∧ (exists r g',
       MainCopy.random_loop Examples.planar_distance nat Examples.keep_order
         Examples.two_triangles 1 300%Q (1#10)%Q 120 1 0%nat = (Returned r, g')).
Proof.
  apply random_loop_no_raise.
  - by_compute.
  - by_compute.
Defined.

(** With a [start] that is not a node the first [G[node]] raises. *)
Lemma random_loop_absent_start
    great_circle rng shuffle G start target_dist margin max_steps i g :
  0 < max_steps -> g_nodes G !! start = None ->
  Main.random_loop great_circle rng shuffle G start target_dist margin max_steps i g
    = (Raised (KeyError start), g)
  ∧ MainCopy.random_loop great_circle rng shuffle G start target_dist margin
      max_steps i g = (Raised (KeyError start), g).
Proof.
  unfold Main.random_loop, MainCopy.random_loop. intros Hpos Hnone.
  destruct (Z.to_nat max_steps) as [|r] eqn:Hr; [lia|].
  simpl. unfold successors. by rewrite Hnone.
Qed.

Lemma successors_dead_end G u :
  is_Some (g_nodes G !! u) -> Forall (fun e => e_u e ≠ u) (g_edges G) ->
  successors G u = Returned [].
Proof.
  unfold successors. intros [yx ->] Hout. by rewrite (filter_none _ _ Hout).
Qed.

(** X15. The edge cases of [random_loop], in either script. With
    [max_steps <= 0] it returns no candidate and draws nothing. With a
    [start] that is not a node it raises [KeyError]. From a [start] that no
    edge leaves it returns no candidate after one shuffle. *)
Theorem random_loop_edge_cases
    great_circle rng shuffle G start target_dist margin max_steps i g :
  (max_steps ≤ 0 ->
   Main.random_loop great_circle rng shuffle G start target_dist margin max_steps i g
     = (Returned None, g)
   ∧ MainCopy.random_loop great_circle rng shuffle G start target_dist margin
       max_steps i g = (Returned None, g))
  ∧ (0 < max_steps -> g_nodes G !! start = None ->
     Main.random_loop great_circle rng shuffle G start target_dist margin max_steps i g
       = (Raised (KeyError start), g)
     ∧ MainCopy.random_loop great_circle rng shuffle G start target_dist margin
         max_steps i g = (Raised (KeyError start), g))
  ∧ (0 < max_steps -> permutes shuffle -> is_Some (g_nodes G !! start) ->
     Forall (fun e => e_u e ≠ start) (g_edges G) ->
     Main.random_loop great_circle rng shuffle G start target_dist margin max_steps i g
       = (Returned None, (shuffle g []).2)
     ∧ MainCopy.random_loop great_circle rng shuffle G start target_dist margin
         max_steps i g = (Returned None, (shuffle g []).2)).
Proof.
  unfold Main.random_loop, MainCopy.random_loop. split_and!.
  - intros Hle. by replace (Z.to_nat max_steps) with 0%nat by lia.
  - intros Hpos Hnone. destruct (Z.to_nat max_steps) as [|r] eqn:Hr; [lia|].
    simpl. unfold successors. by rewrite Hnone.
  - intros Hpos Hperm Hstart Hout. destruct (Z.to_nat max_steps) as [|r] eqn:Hr; [lia|].
    simpl. rewrite (successors_dead_end G start Hstart Hout).
    specialize (Hperm g []). destruct (shuffle g []) as [l g1]. simpl in *.
    apply Permutation_nil_r in Hperm as ->. done.
Qed.

Lemma random_loop_edge_cases_witness :
  (Main.random_loop Examples.planar_distance nat Examples.keep_order
     Examples.short_street 7 300%Q (1#10)%Q 120 1 0%nat = (Raised (KeyError 7), 0%nat)
   ∧ MainCopy.random_loop Examples.planar_distance nat Examples.keep_order
       Examples.short_street 7 300%Q (1#10)%Q 120 1 0%nat = (Raised (KeyError 7), 0%nat))
  ∧ (Main.random_loop Examples.planar_distance nat Examples.keep_order
       Examples.short_street 2 300%Q (1#10)%Q 120 1 0%nat
     = (Returned None, (Examples.keep_order 0%nat []).2)
     ∧ MainCopy.random_loop Examples.planar_distance nat Examples.keep_order
         Examples.short_street 2 300%Q (1#10)%Q 120 1 0%nat
       = (Returned None, (Examples.keep_order 0%nat []).2)).
Proof.
  split.
  - apply (proj1 (proj2 (random_loop_edge_cases Examples.planar_distance nat
             Examples.keep_order Examples.short_street 7 300%Q (1#10)%Q 120 1 0%nat)));
      [lia | vm_compute; reflexivity].
  - apply (proj2 (proj2 (random_loop_edge_cases Examples.planar_distance nat
             Examples.keep_order Examples.short_street 2 300%Q (1#10)%Q 120 1 0%nat)));
      [lia | intros g l; reflexivity | by_compute | by_compute].
Defined.

(* ===================================================================== *)
(** * More on the search *)
(* ===================================================================== *)

(** The loop of [find_top_loops] appends the first candidate of every
    LoopKey that [seen_hashes] does not hold yet. *)
Lemma search_loop_first_by_key {rng}
    (run : Z -> rng -> outcome (option candidate) * rng) ids :
  forall s g s' g' seen,
    (forall p, path_hash p ∈ seen_hashes s <-> loop_key p ∈ seen) ->
    search_loop run ids s g = (Returned s', g') ->
    results s' = results s ++ (entry_of <$> first_by_key seen (successes run ids g)).
Proof.
  induction ids as [|i ids IH]; intros s g s' g' seen Hseen Hloop; simpl in *.
  { injection Hloop as <- <-. by rewrite app_nil_r. }
  destruct (run i g) as [[[c|]|e] g1]; [| by eapply IH | discriminate].
  simpl. unfold keep in Hloop. cbv zeta in Hloop.
  destruct (decide (path_hash (c_path c) ∉ seen_hashes s)) as [Hnew|Hold].
  - rewrite decide_False by (by rewrite <- Hseen).
    assert (Hrel : forall p,
              path_hash p ∈ ({[path_hash (c_path c)]} ∪ seen_hashes s : gset (list node))
              <-> loop_key p ∈ loop_key (c_path c) :: seen).
    { intros p. rewrite elem_of_union, elem_of_singleton, elem_of_cons, Hseen.
      split; (intros [Hp|Hp]; [left|by right]);
        [by apply loop_key_path_hash | by apply path_hash_loop_key]. }
    match type of Hloop with
    | search_loop _ _ ?s1 _ = _ => rewrite (IH s1 g1 s' g' _ Hrel Hloop)
    end.
    simpl. by rewrite <- app_assoc.
  - rewrite decide_True by (rewrite <- Hseen; by apply dec_stable).
    by eapply IH.
Qed.

Lemma first_by_key_origin seen cs c :
  c ∈ first_by_key seen cs ->
  (loop_key (c_path c) ∉ seen)
  ∧ exists cs1 cs2,
      cs = cs1 ++ c :: cs2
      ∧ forall c', c' ∈ cs1 -> loop_key (c_path c') ≠ loop_key (c_path c).
Proof.
  revert seen. induction cs as [|c0 cs IH]; intros seen Hc; simpl in Hc.
  { by apply not_elem_of_nil in Hc. }
  destruct (decide (loop_key (c_path c0) ∈ seen)) as [Hin|Hnew].
  - destruct (IH _ Hc) as (Hk & cs1 & cs2 & -> & Hbefore).
    split; [done|]. exists (c0 :: cs1), cs2. split; [done|].
    intros c' Hc'. apply elem_of_cons in Hc' as [->|Hc']; [congruence | by apply Hbefore].
  - apply elem_of_cons in Hc as [->|Hc].
    + split; [done|]. exists [], cs. split; [done|].
      intros c' Hc'. by apply not_elem_of_nil in Hc'.
    + destruct (IH _ Hc) as (Hk & cs1 & cs2 & -> & Hbefore).
      apply not_elem_of_cons in Hk as [Hne Hk].
      split; [done|]. exists (c0 :: cs1), cs2. split; [done|].
      intros c' Hc'. apply elem_of_cons in Hc' as [->|Hc']; [congruence | by apply Hbefore].
Qed.

Lemma first_by_key_length seen cs :
  length (first_by_key seen cs)
  = size (list_to_set ((fun c => loop_key (c_path c)) <$> cs) ∖ list_to_set seen
          : gset (gset node)).
Proof.
  revert seen. induction cs as [|c cs IH]; intros seen; simpl.
  { by rewrite difference_nil, size_empty. }
  destruct (decide (loop_key (c_path c) ∈ seen)) as [Hin|Hnew].
  - rewrite IH. f_equal. rewrite difference_seen by (by apply elem_of_list_to_set).
    f_equal. apply set_eq. intros k.
    rewrite elem_of_union, elem_of_singleton, !elem_of_list_to_set.
    split; [tauto|]. intros [->|?]; done.
  - simpl. rewrite IH, size_difference_new by (by rewrite elem_of_list_to_set).
    reflexivity.
Qed.

Lemma first_by_key_covers seen cs c :
  c ∈ cs -> loop_key (c_path c) ∉ seen ->
  exists c', c' ∈ first_by_key seen cs ∧ loop_key (c_path c') = loop_key (c_path c).
Proof.
  revert seen. induction cs as [|c0 cs IH]; intros seen Hc Hk.
  { by apply not_elem_of_nil in Hc. }
  simpl. destruct (decide (loop_key (c_path c0) ∈ seen)) as [Hin|Hnew].
  - apply elem_of_cons in Hc as [->|Hc]; [done | by apply IH].
  - destruct (decide (loop_key (c_path c0) = loop_key (c_path c))) as [Heq|Hne].
    + exists c0. split; [left | done].
    + apply elem_of_cons in Hc as [->|Hc]; [done|].
      destruct (IH (loop_key (c_path c0) :: seen) Hc) as (c' & Hc' & Hk').
      { apply not_elem_of_cons. split; [congruence | done]. }
      exists c'. split; [by right | done].
Qed.

Lemma retained_length cs : length (retained cs) = distinct_keys cs.
Proof.
  unfold retained, distinct_keys. rewrite length_fmap, first_by_key_length.
  simpl. by rewrite difference_none.
Qed.

Lemma slice_to_subseteq {A} (l : list A) k x : x ∈ slice_to l k -> x ∈ l.
Proof.
  unfold slice_to. destruct (decide (0 ≤ k)); intros Hx;
    by eapply list_elem_of_lookup in Hx as [i [Hx _]%lookup_take_Some];
    eapply list_elem_of_lookup_2.
Qed.

Lemma slice_to_length {A} (l : list A) k :
  Z.of_nat (length (slice_to l k))
  = if decide (0 ≤ k) then Z.min k (Z.of_nat (length l))
    else Z.max 0 (Z.of_nat (length l) + k).
Proof.
  unfold slice_to. destruct (decide (0 ≤ k)); rewrite length_take; lia.
Qed.

Section SearchMore.

Variable great_circle : Q -> Q -> Q -> Q -> Q.
Variable rng : Type.
Variable shuffle : rng -> list node -> list node * rng.

Lemma searched_retained G start target_dist margin attempts top_k g run rs g' :
  searched great_circle rng shuffle G start target_dist margin attempts top_k g run rs g' ->
  rs = slice_to (sort_reverse (retained (successes run (range1 attempts) g))) top_k.
Proof.
  assert (Hgen : forall s,
    search_loop run (range1 attempts) {| results := []; seen_hashes := ∅ |} g
      = (Returned s, g') ->
    results s = retained (successes run (range1 attempts) g)).
  { intros s Hloop. unfold retained.
    assert (Hrel : forall p,
              path_hash p ∈ (∅ : gset (list node)) <-> loop_key p ∈ @nil (gset node)).
    { intros p. split; intros Hp; [by apply not_elem_of_empty in Hp
                                  | by apply not_elem_of_nil in Hp]. }
    by rewrite (search_loop_first_by_key run _
                  {| results := []; seen_hashes := ∅ |} g s g' [] Hrel Hloop). }
  intros [[-> H]|[-> H]].
  - unfold Main.find_top_loops in H. rewrite main_attempts_loop_search in H.
    destruct (search_loop _ _ _ _) as [[s|e] g1] eqn:Hloop; [|discriminate].
    injection H as <- <-. by rewrite (Hgen s).
  - unfold MainCopy.find_top_loops in H. rewrite copy_attempts_loop_search in H.
    destruct (search_loop _ _ _ _) as [[s|e] g1] eqn:Hloop; [|discriminate].
    injection H as <- <-. by rewrite (Hgen s).
Qed.

End SearchMore.

Lemma sort_reverse_StronglySorted l :
  StronglySorted (fun a b => (r_score b <= r_score a)%Q) (sort_reverse l).
Proof.
  apply Sorted_StronglySorted.
  - intros x y z Hxy Hyz. by eapply Qle_trans.
  - eapply Sorted_weaken; [apply precedes_score | apply sort_reverse_Sorted].
Qed.

(** X17. Every entry that [find_top_loops] returns, in either script, is the
    score, path and distance of a candidate returned by one of its
    attempts, the first of them with that LoopKey. *)
Theorem returned_entry_is_first_of_its_key
    great_circle rng shuffle G start target_dist margin attempts top_k g run rs g' r :
  searched great_circle rng shuffle G start target_dist margin attempts top_k g run rs g' ->
  r ∈ rs ->
  exists cs1 c cs2,
    successes run (range1 attempts) g = cs1 ++ c :: cs2
    ∧ r = entry_of c
    ∧ forall c', c' ∈ cs1 -> loop_key (c_path c') ≠ loop_key (c_path c).
Proof.
  intros Hs Hr. rewrite (searched_retained _ _ _ _ _ _ _ _ _ _ _ _ _ Hs) in Hr.
  apply slice_to_subseteq in Hr. rewrite sort_reverse_Permutation in Hr.
  unfold retained in Hr. apply list_elem_of_fmap in Hr as (c & -> & Hc).
  apply first_by_key_origin in Hc as (_ & cs1 & cs2 & Hcs & Hbefore).
  by exists cs1, c, cs2.
Qed.

(** X18. The number of entries that [find_top_loops] returns, in either script:
    with the number [n] of distinct LoopKeys among the candidates of its
    attempts, [min top_k n] when [top_k >= 0] and [max 0 (n + top_k)] when
    [top_k < 0]. *)
Theorem returned_count
    great_circle rng shuffle G start target_dist margin attempts top_k g run rs g' :
  searched great_circle rng shuffle G start target_dist margin attempts top_k g run rs g' ->
  Z.of_nat (length rs)
  = let n := Z.of_nat (distinct_keys (successes run (range1 attempts) g)) in
    if decide (0 ≤ top_k) then Z.min top_k n else Z.max 0 (n + top_k).
Proof.
  intros Hs. rewrite (searched_retained _ _ _ _ _ _ _ _ _ _ _ _ _ Hs).
  rewrite slice_to_length, (Permutation_length (sort_reverse_Permutation _)).
  by rewrite retained_length.
Qed.

(** X19. When [top_k] is at least the number of distinct LoopKeys found, every
    LoopKey of a candidate of the attempts is the LoopKey of a returned
    entry, in either script. *)
Theorem every_key_returned
    great_circle rng shuffle G start target_dist margin attempts top_k g run rs g' c :
  searched great_circle rng shuffle G start target_dist margin attempts top_k g run rs g' ->
  Z.of_nat (distinct_keys (successes run (range1 attempts) g)) ≤ top_k ->
  c ∈ successes run (range1 attempts) g ->
  exists r, r ∈ rs ∧ loop_key (r_path r) = loop_key (c_path c).
Proof.
  intros Hs Hk Hc. rewrite (searched_retained _ _ _ _ _ _ _ _ _ _ _ _ _ Hs).
  unfold slice_to. rewrite decide_True by lia.
  rewrite take_ge
    by (rewrite (Permutation_length (sort_reverse_Permutation _)), retained_length; lia).
  destruct (first_by_key_covers [] _ c Hc) as (c' & Hc' & Hkey);
    [apply not_elem_of_nil|].
  exists (entry_of c'). split; [|done].
  rewrite sort_reverse_Permutation. unfold retained. by apply list_elem_of_fmap_2.
Qed.

(** X20. With [top_k >= 0] the entries returned are the best of the entries
    retained: the others score no higher than any of them; in either
    script. *)
Theorem returned_are_best
    great_circle rng shuffle G start target_dist margin attempts top_k g run rs g' :
  searched great_circle rng shuffle G start target_dist margin attempts top_k g run rs g' ->
  0 ≤ top_k ->
  exists rest,
    rs ++ rest ≡ₚ retained (successes run (range1 attempts) g)
    ∧ forall a b, a ∈ rs -> b ∈ rest -> (r_score b <= r_score a)%Q.
Proof.
  intros Hs Hk. rewrite (searched_retained _ _ _ _ _ _ _ _ _ _ _ _ _ Hs).
  unfold slice_to. rewrite decide_True by done.
  set (sorted := sort_reverse (retained (successes run (range1 attempts) g))).
  exists (drop (Z.to_nat top_k) sorted). split.
  - rewrite take_drop. apply sort_reverse_Permutation.
  - intros a b Ha Hb.
    apply (StronglySorted_app_1_elem_of
             (fun a b => (r_score b <= r_score a)%Q)
             (take (Z.to_nat top_k) sorted) (drop (Z.to_nat top_k) sorted)); [|done..].
    rewrite take_drop. apply sort_reverse_StronglySorted.
Qed.

Lemma returned_entry_is_first_of_its_key_witness :
  exists cs1 c cs2,
    successes SearchExamples.run (range1 2) 0%nat = cs1 ++ c :: cs2
    ∧ SearchExamples.left_round = entry_of c
    ∧ forall c', c' ∈ cs1 -> loop_key (c_path c') ≠ loop_key (c_path c).
Proof.
  apply (returned_entry_is_first_of_its_key Examples.planar_distance nat
           Examples.alternate Examples.two_triangles 1 300%Q (1#10)%Q 2 3 0%nat
           SearchExamples.run
           [SearchExamples.left_round; SearchExamples.right_round] 6%nat).
  - left. split; [reflexivity | vm_compute; reflexivity].
  - left.
Defined.

Lemma returned_count_witness :
  Z.of_nat (length [SearchExamples.left_round; SearchExamples.right_round])
  = let n := Z.of_nat (distinct_keys (successes SearchExamples.run (range1 2) 0%nat)) in
    if decide (0 ≤ 3) then Z.min 3 n else Z.max 0 (n + 3).
Proof.
  apply (returned_count Examples.planar_distance nat
           Examples.alternate Examples.two_triangles 1 300%Q (1#10)%Q 2 3 0%nat
           SearchExamples.run
           [SearchExamples.left_round; SearchExamples.right_round] 6%nat).
  left. split; [reflexivity | vm_compute; reflexivity].
Defined.

Lemma every_key_returned_witness :
  exists r,
    r ∈ [SearchExamples.left_round; SearchExamples.right_round]
    ∧ loop_key (r_path r) = loop_key Examples.one_round.
Proof.
  apply (every_key_returned Examples.planar_distance nat
           Examples.alternate Examples.two_triangles 1 300%Q (1#10)%Q 2 3 0%nat
           SearchExamples.run
           [SearchExamples.left_round; SearchExamples.right_round] 6%nat
           {| c_path := Examples.one_round; c_dist := 300%Q; c_score := (-15)%Q |}).
  - left. split; [reflexivity | vm_compute; reflexivity].
  - vm_compute. discriminate.
  - vm_compute. left.
Defined.

Lemma returned_are_best_witness :
  exists rest,
    [SearchExamples.left_round] ++ rest
    ≡ₚ retained (successes SearchExamples.run (range1 2) 0%nat)
    ∧ forall a b, a ∈ [SearchExamples.left_round] -> b ∈ rest ->
        (r_score b <= r_score a)%Q.
Proof.
  apply (returned_are_best Examples.planar_distance nat
           Examples.alternate Examples.two_triangles 1 300%Q (1#10)%Q 2 1 0%nat
           SearchExamples.run [SearchExamples.left_round] 6%nat).
  - left. split; [reflexivity | vm_compute; reflexivity].
  - lia.
Defined.

(* ===================================================================== *)
(** * The walk stops the first time it closes *)
(* ===================================================================== *)

Lemma never_closed_prefix closes G path x bound :
  (bound ≤ length path)%nat ->
  never_closed closes G path bound -> never_closed closes G (path ++ [x]) bound.
Proof.
  intros Hb Hnc k n Hk Hn.
  rewrite take_app_le by lia. rewrite lookup_app_l in Hn by lia. by apply Hnc.
Qed.

Lemma never_closed_snoc closes G path x d :
  (forall d1 d2 n, (d1 == d2)%Q -> closes d1 n -> closes d2 n) ->
  never_closed closes G path (length path) ->
  (d == path_length G (path ++ [x]))%Q ->
  ¬ closes d x ->
  never_closed closes G (path ++ [x]) (length (path ++ [x])).
Proof.
  intros Hwd Hnc Hd Hx k n Hk Hn. rewrite length_app in Hk. simpl in Hk.
  destruct (decide (k ≤ length path)%nat) as [Hle|Hgt].
  - apply (never_closed_prefix closes G path x (length path) (Nat.le_refl _) Hnc k n);
      [lia | done].
  - assert (k = length (path ++ [x])) as -> by (rewrite length_app; simpl; lia).
    rewrite take_ge by done.
    rewrite length_app in Hn. simpl in Hn.
    rewrite lookup_app_r in Hn by lia.
    replace (length path + 1 - 1 - length path)%nat with 0%nat in Hn by lia.
    simpl in Hn. injection Hn as <-.
    intros Hc. apply Hx. eapply Hwd; [|exact Hc]. by symmetry.
Qed.

Lemma main_closes_wd great_circle G start target_dist margin d1 d2 n :
  (d1 == d2)%Q ->
  main_closes great_circle G start target_dist margin d1 n ->
  main_closes great_circle G start target_dist margin d2 n.
Proof.
  unfold main_closes, Main.in_band. intros Hd [[Hlo Hhi] Hc].
  rewrite Hd in Hlo, Hhi. done.
Qed.

Lemma copy_closes_wd great_circle G start target_dist margin d1 d2 n :
  (d1 == d2)%Q ->
  copy_closes great_circle G start target_dist margin d1 n ->
  copy_closes great_circle G start target_dist margin d2 n.
Proof. unfold copy_closes. intros Hd [Hlo Hc]. rewrite Hd in Hlo. done. Qed.

Section FirstClosing.

Variable great_circle : Q -> Q -> Q -> Q -> Q.
Variable rng : Type.
Variable shuffle : rng -> list node -> list node * rng.

Lemma main_walk_first_closing G start target_dist margin remaining st g c g' :
  Main.walk great_circle rng shuffle G start target_dist margin remaining st g
  = (Returned (Some c), g') ->
  walk_along G start st ->
  never_closed (main_closes great_circle G start target_dist margin) G
    (path st) (length (path st)) ->
  never_closed (main_closes great_circle G start target_dist margin) G
    (c_path c) (length (c_path c) - 1).
Proof.
  revert st g. induction remaining as [|r IH]; intros st g Hwalk Hinv Hnc;
    simpl in Hwalk; [discriminate|].
  destruct (successors G (cur st)) as [nbrs|e]; [|discriminate].
  destruct (shuffle g nbrs) as [nbrs' g1].
  destruct (Main.scan G st nbrs') as [st1|] eqn:Hscan; [|discriminate].
  apply main_scan_move in Hscan as (nb & l & _ & Hmove).
  pose proof (move_preserves_along _ _ _ _ _ _ Hinv Hmove) as Hinv1.
  pose proof (move_path _ _ _ _ _ Hmove) as Hpath.
  pose proof (move_cur _ _ _ _ _ Hmove) as Hcur.
  pose proof (along_dist _ _ _ Hinv1) as Hdist. rewrite Hpath in Hdist.
  assert (Hopen :
    ¬ main_closes great_circle G start target_dist margin (dist st1) nb ->
    never_closed (main_closes great_circle G start target_dist margin) G
      (path st1) (length (path st1))).
  { intros Hno. rewrite Hpath.
    apply (never_closed_snoc _ G (path st) nb (dist st1)); try done.
    intros d1 d2 n. apply main_closes_wd. }
  destruct (decide (Main.in_band margin target_dist (dist st1))) as [Hband|Hband].
  - destruct (Main.is_close_to_start great_circle G (cur st1) start 50)
      as [[|]|e] eqn:Hclose; [| |discriminate].
    + injection Hwalk as <- <-. simpl. rewrite Hpath, length_app. simpl.
      replace (length (path st) + 1 - 1)%nat with (length (path st)) by lia.
      by apply never_closed_prefix.
    + apply (IH _ _ Hwalk Hinv1). apply Hopen. rewrite <- Hcur.
      unfold main_closes. rewrite Hclose. intros [_ ?]. discriminate.
  - apply (IH _ _ Hwalk Hinv1). apply Hopen. unfold main_closes. tauto.
Qed.

Lemma copy_walk_first_closing G start target_dist margin remaining st g c g' :
  MainCopy.walk great_circle rng shuffle G start target_dist margin remaining st g
  = (Returned (Some c), g') ->
  walk_along G start st ->
  never_closed (copy_closes great_circle G start target_dist margin) G
    (path st) (length (path st)) ->
  never_closed (copy_closes great_circle G start target_dist margin) G
    (c_path c) (length (c_path c) - 1).
Proof.
  revert st g. induction remaining as [|r IH]; intros st g Hwalk Hinv Hnc;
    simpl in Hwalk; [discriminate|].
  destruct (successors G (cur st)) as [nbrs|e]; [|discriminate].
  destruct (shuffle g nbrs) as [nbrs' g1].
  destruct (MainCopy.scan G st nbrs') as [st1|] eqn:Hscan; [|discriminate].
  apply copy_scan_move in Hscan as (nb & l & _ & Hmove).
  pose proof (move_preserves_along _ _ _ _ _ _ Hinv Hmove) as Hinv1.
  pose proof (move_path _ _ _ _ _ Hmove) as Hpath.
  pose proof (move_cur _ _ _ _ _ Hmove) as Hcur.
  pose proof (along_dist _ _ _ Hinv1) as Hdist. rewrite Hpath in Hdist.
  assert (Hopen :
    ¬ copy_closes great_circle G start target_dist margin (dist st1) nb ->
    never_closed (copy_closes great_circle G start target_dist margin) G
      (path st1) (length (path st1))).
  { intros Hno. rewrite Hpath.
    apply (never_closed_snoc _ G (path st) nb (dist st1)); try done.
    intros d1 d2 n. apply copy_closes_wd. }
  destruct (decide ((1 - margin) * target_dist <= dist st1)%Q) as [Hband|Hband].
  - destruct (MainCopy.is_close_to_start great_circle G (cur st1) start 100)
      as [[|]|e] eqn:Hclose; [| |discriminate].
    + injection Hwalk as <- <-. simpl. rewrite Hpath, length_app. simpl.
      replace (length (path st) + 1 - 1)%nat with (length (path st)) by lia.
      by apply never_closed_prefix.
    + apply (IH _ _ Hwalk Hinv1). apply Hopen. rewrite <- Hcur.
      unfold copy_closes. rewrite Hclose. intros [_ ?]. discriminate.
  - apply (IH _ _ Hwalk Hinv1). apply Hopen. unfold copy_closes. tauto.
Qed.

End FirstClosing.

Lemma never_closed_start closes G start : never_closed closes G [start] 1.
Proof. intros k n Hk. lia. Qed.

(** X16. [random_loop] returns the first loop that closes: at no earlier node of
    the returned path, with the distance walked up to it, did the closing
    test of the script hold. *)
Theorem returned_at_first_closing
    great_circle rng shuffle G start target_dist margin max_steps i g c g' :
  (Main.random_loop great_circle rng shuffle G start target_dist margin max_steps i g
     = (Returned (Some c), g') ->
   never_closed (main_closes great_circle G start target_dist margin) G
     (c_path c) (length (c_path c) - 1))
  ∧ (MainCopy.random_loop great_circle rng shuffle G start target_dist margin
       max_steps i g = (Returned (Some c), g') ->
     never_closed (copy_closes great_circle G start target_dist margin) G
       (c_path c) (length (c_path c) - 1)).
Proof.
  split; intros H.
  - eapply main_walk_first_closing; [exact H | apply main_initial_along |].
    apply never_closed_start.
  - eapply copy_walk_first_closing; [exact H | apply copy_initial_along |].
    apply never_closed_start.
Qed.

Lemma returned_at_first_closing_witness :
  never_closed
    (main_closes Examples.planar_distance (Examples.triangle (Some 100%Q)) 1
       900%Q (1#10)%Q)
    (Examples.triangle (Some 100%Q))
    Examples.three_rounds (length Examples.three_rounds - 1).
Proof.
  apply (proj1 (returned_at_first_closing Examples.planar_distance nat
           Examples.keep_order (Examples.triangle (Some 100%Q)) 1 900%Q (1#10)%Q
           120 1 0%nat
           {| c_path := Examples.three_rounds; c_dist := 900%Q; c_score := (-285)%Q |}
           9%nat)).
  vm_compute. reflexivity.
Defined.

(* ===================================================================== *)
(** * Exceptions of the search, and the hash of a path *)
(* ===================================================================== *)

Lemma search_loop_no_raise {rng}
    (run : Z -> rng -> outcome (option candidate) * rng) ids s g :
  (forall i g, exists r g', run i g = (Returned r, g')) ->
  exists s' g', search_loop run ids s g = (Returned s', g').
Proof.
  intros Hrun. revert s g. induction ids as [|i ids IH]; intros s g; simpl.
  { by eexists _, _. }
  destruct (Hrun i g) as (r & g1 & ->). destruct r as [c|]; apply IH.
Qed.

(** X22. On a well-formed graph that holds [start], [find_top_loops] raises no
    exception, in either script: it returns a list. *)
Theorem find_top_loops_no_raise
    great_circle rng shuffle G start target_dist margin attempts top_k g :
  well_formed G -> is_Some (g_nodes G !! start) ->
  (exists rs g',
     Main.find_top_loops great_circle rng shuffle G start target_dist margin
       attempts top_k g = (Returned rs, g'))
  ∧ (exists rs g',
       MainCopy.find_top_loops great_circle rng shuffle G start target_dist margin
         attempts top_k g = (Returned rs, g')).
Proof.
  intros Hwf Hstart. split.
  - unfold Main.find_top_loops. rewrite main_attempts_loop_search.
    destruct (search_loop_no_raise
                (Main.random_loop great_circle rng shuffle G start target_dist margin 120)
                (range1 attempts) {| results := []; seen_hashes := ∅ |} g)
      as (s & g' & ->); [|by eexists _, _].
    intros i g0. apply main_walk_no_raise; [done..|apply main_initial_along].
  - unfold MainCopy.find_top_loops. rewrite copy_attempts_loop_search.
    destruct (search_loop_no_raise
                (MainCopy.random_loop great_circle rng shuffle G start target_dist margin 200)
                (range1 attempts) {| results := []; seen_hashes := ∅ |} g)
      as (s & g' & ->); [|by eexists _, _].
    intros i g0. apply copy_walk_no_raise; [done..|apply copy_initial_along].
Qed.

Lemma find_top_loops_no_raise_witness :
  (exists rs g',
     Main.find_top_loops Examples.planar_distance nat Examples.alternate
       Examples.two_triangles 1 300%Q (1#10)%Q 2 3 0%nat = (Returned rs, g'))
  ∧ (exists rs g',
       MainCopy.find_top_loops Examples.planar_distance nat Examples.alternate
         Examples.two_triangles 1 300%Q (1#10)%Q 2 3 0%nat = (Returned rs, g')).
Proof.
  apply find_top_loops_no_raise.
  - by_compute.
  - by_compute.
Defined.

(** X23. With at least one attempt and a [start] that is not a node of the
    graph, [find_top_loops] raises [KeyError] at its first attempt, in
    either script, whatever [top_k]. *)
Theorem find_top_loops_key_error
    great_circle rng shuffle G start target_dist margin attempts top_k g :
  0 < attempts -> g_nodes G !! start = None ->
  Main.find_top_loops great_circle rng shuffle G start target_dist margin
    attempts top_k g = (Raised (KeyError start), g)
  ∧ MainCopy.find_top_loops great_circle rng shuffle G start target_dist margin
      attempts top_k g = (Raised (KeyError start), g).
Proof.
  intros Hpos Hnone.
  unfold Main.find_top_loops, MainCopy.find_top_loops, range1.
  rewrite (seqZ_cons 1 attempts Hpos). simpl.
  unfold Main.attempt, MainCopy.attempt.
  destruct (random_loop_absent_start great_circle rng shuffle G start target_dist
              margin 120 1 g ltac:(lia) Hnone) as [-> _].
  destruct (random_loop_absent_start great_circle rng shuffle G start target_dist
              margin 200 1 g ltac:(lia) Hnone) as [_ ->]. done.
Qed.

Lemma find_top_loops_key_error_witness :
  Main.find_top_loops Examples.planar_distance nat Examples.keep_order
    Examples.short_street 7 300%Q (1#10)%Q 5 3 0%nat = (Raised (KeyError 7), 0%nat)
  ∧ MainCopy.find_top_loops Examples.planar_distance nat Examples.keep_order
      Examples.short_street 7 300%Q (1#10)%Q 5 3 0%nat = (Raised (KeyError 7), 0%nat).
Proof.
  apply find_top_loops_key_error; [lia | vm_compute; reflexivity].
Defined.

(** X24. The hash of a path is its set of nodes as a sorted list without
    duplicates: two paths have the same hash exactly when they visit the
    same nodes, in whatever order and however often. *)
Theorem path_hash_canonical p q :
  (path_hash p = path_hash q <-> forall n, n ∈ p <-> n ∈ q)
  ∧ (forall n, n ∈ path_hash p <-> n ∈ p)
  ∧ NoDup (path_hash p)
  ∧ Sorted Z.le (path_hash p).
Proof.
  split_and!.
  - split.
    + intros Hh n. apply loop_key_path_hash in Hh. unfold loop_key in Hh.
      rewrite <- !(elem_of_list_to_set (C := gset node)). by rewrite Hh.
    + intros Hn. apply path_hash_loop_key. unfold loop_key.
      apply set_eq. intros n. rewrite !elem_of_list_to_set. apply Hn.
  - intros n. unfold path_hash.
    rewrite merge_sort_Permutation, elem_of_elements. apply elem_of_list_to_set.
  - unfold path_hash. rewrite merge_sort_Permutation. apply NoDup_elements.
  - unfold path_hash. apply Sorted_merge_sort. apply _.
Qed.

(* ===================================================================== *)
(** * The order of the returned entries *)
(* ===================================================================== *)

Lemma list_compare_eq a b : list_compare a b = Eq -> a = b.
Proof.
  revert b. induction a as [|x a IH]; intros [|y b]; simpl; try done.
  destruct (x ?= y) eqn:Hxy; try done.
  apply Z.compare_eq in Hxy as ->. intros H. by rewrite (IH b H).
Qed.

Lemma list_compare_gt_trans a b c :
  list_compare a b = Gt -> list_compare b c = Gt -> list_compare a c = Gt.
Proof.
  revert b c. induction a as [|x a IH]; intros [|y b] [|z c]; simpl; try done.
  destruct (x ?= y) eqn:Hxy; destruct (y ?= z) eqn:Hyz; try done.
  - apply Z.compare_eq in Hxy as ->. rewrite Hyz. apply IH.
  - apply Z.compare_eq in Hxy as ->. by rewrite Hyz.
  - apply Z.compare_eq in Hyz as <-. by rewrite Hxy.
  - apply Z.compare_gt_iff in Hxy, Hyz.
    assert ((x ?= z) = Gt) as -> by (apply Z.compare_gt_iff; lia). done.
Qed.

(** The order of the tuples, read off [entry_compare]. *)
Lemma precedes_cases a b :
  precedes a b <->
  (r_score b < r_score a)%Q
  ∨ ((r_score a == r_score b)%Q
     ∧ (list_compare (r_path a) (r_path b) = Gt
        ∨ (r_path a = r_path b ∧ (r_dist b <= r_dist a)%Q))).
Proof.
  unfold precedes, entry_compare.
  destruct (Qcompare_spec (r_score a) (r_score b)) as [Hs|Hs|Hs].
  - destruct (list_compare (r_path a) (r_path b)) eqn:Hp.
    + apply list_compare_eq in Hp. rewrite Hp.
      assert (Hirr : list_compare (r_path b) (r_path b) ≠ Gt).
      { intros H. pose proof (list_compare_antisym (r_path b) (r_path b)) as Ha.
        rewrite H in Ha. discriminate. }
      destruct (Qcompare_spec (r_dist a) (r_dist b)) as [Hd|Hd|Hd].
      * split; [|done]. intros _. right. split; [done|]. right. split; [done|].
        rewrite Hd. apply Qle_refl.
      * split; [done|]. intros [H|[_ [H|[_ H]]]]; [lra | done | lra].
      * split; [|done]. intros _. right. split; [done|]. right. split; [done|]. lra.
    + split; [done|]. intros [H|[_ [H|[H _]]]]; [lra | done |].
      rewrite H in Hp.
      pose proof (list_compare_antisym (r_path b) (r_path b)) as Ha.
      rewrite Hp in Ha. discriminate.
    + split; [|done]. intros _. right. split; [done|]. by left.
  - split; [done|]. intros [H|[H _]]; lra.
  - split; [|done]. intros _. by left.
Qed.

Lemma precedes_trans : Transitive precedes.
Proof.
  intros a b c Hab Hbc. apply precedes_cases in Hab, Hbc. apply precedes_cases.
  destruct Hab as [Hab|[Hab Hab']]; destruct Hbc as [Hbc|[Hbc Hbc']].
  - left. lra.
  - left. lra.
  - left. lra.
  - right. split; [lra|].
    destruct Hab' as [Hp|[Hp Hd]]; destruct Hbc' as [Hq|[Hq Hd']].
    + left. by eapply list_compare_gt_trans.
    + left. by rewrite <- Hq.
    + left. by rewrite Hp.
    + right. split; [congruence | lra].
Qed.

Lemma sort_reverse_precedes l : StronglySorted precedes (sort_reverse l).
Proof.
  apply Sorted_StronglySorted; [apply precedes_trans | apply sort_reverse_Sorted].
Qed.

Lemma first_by_key_NoDup seen cs :
  NoDup ((fun c => loop_key (c_path c)) <$> first_by_key seen cs).
Proof.
  revert seen. induction cs as [|c cs IH]; intros seen; simpl; [constructor|].
  destruct (decide (loop_key (c_path c) ∈ seen)); [apply IH|].
  simpl. constructor; [|apply IH].
  intros Hin. apply list_elem_of_fmap in Hin as (c' & Hk & Hc').
  apply first_by_key_origin in Hc' as [Hnot _]. apply Hnot. rewrite <- Hk. left.
Qed.

Lemma retained_paths_differ cs :
  NoDup (r_path <$> retained cs).
Proof.
  apply (NoDup_fmap_1 loop_key). unfold retained.
  rewrite <- !list_fmap_compose. apply (first_by_key_NoDup [] cs).
Qed.

(** X21. The entries that [find_top_loops] returns, in either script, stand in
    strictly decreasing order of [(score, path)]: an entry has a higher
    score than a later one, or the same score and a path that is greater as
    a list of node identifiers. *)
Theorem returned_order
    great_circle rng shuffle G start target_dist margin attempts top_k g run rs g'
    (i j : nat) a b :
  searched great_circle rng shuffle G start target_dist margin attempts top_k g run rs g' ->
  (i < j)%nat -> rs !! i = Some a -> rs !! j = Some b ->
  (r_score b < r_score a)%Q
  ∨ ((r_score a == r_score b)%Q ∧ list_compare (r_path a) (r_path b) = Gt).
Proof.
  intros Hs Hij Ha Hb. rewrite (searched_retained _ _ _ _ _ _ _ _ _ _ _ _ _ Hs) in Ha, Hb.
  set (cs := successes run (range1 attempts) g) in *.
  assert (Hlook : forall k x, slice_to (sort_reverse (retained cs)) top_k !! k = Some x ->
                    sort_reverse (retained cs) !! k = Some x).
  { intros k x. unfold slice_to. destruct (decide _); intros H;
      by apply lookup_take_Some in H as [H _]. }
  apply Hlook in Ha, Hb.
  pose proof (StronglySorted_lookup_lt precedes _ i j a b
                (sort_reverse_precedes _) Hij Ha Hb) as Hprec.
  apply precedes_cases in Hprec as [H|[Hsc [H|[Hp _]]]]; [by left | by right |].
  exfalso.
  assert (Hnd : NoDup (r_path <$> sort_reverse (retained cs))).
  { rewrite sort_reverse_Permutation. apply retained_paths_differ. }
  assert (i = j); [|lia].
  apply (NoDup_lookup _ i j (r_path a) Hnd).
  - by rewrite list_lookup_fmap, Ha.
  - by rewrite list_lookup_fmap, Hb, Hp.
Qed.

Lemma returned_order_witness :
  (r_score SearchExamples.right_round < r_score SearchExamples.left_round)%Q
  ∨ ((r_score SearchExamples.left_round == r_score SearchExamples.right_round)%Q
     ∧ list_compare (r_path SearchExamples.left_round)
         (r_path SearchExamples.right_round) = Gt).
Proof.
  apply (returned_order Examples.planar_distance nat
           Examples.alternate Examples.two_triangles 1 300%Q (1#10)%Q 2 3 0%nat
           SearchExamples.run
           [SearchExamples.left_round; SearchExamples.right_round] 6%nat 0%nat 1%nat).
  - left. split; [reflexivity | vm_compute; reflexivity].
  - lia.
  - reflexivity.
  - reflexivity.
Defined.

(* ===================================================================== *)
(** * What the search does with its configuration *)
(* ===================================================================== *)

(** C3, as the scripts have it. [find_top_loops] examines none of
    [target_dist], [attempts] and [top_k] and rejects no configuration:
    for every value of them it is the loop of the attempts
    [range(1, attempts + 1)], each a [random_loop] with [target_dist] and
    [margin] as given, then the sort and the slice [[:top_k]]; it raises
    only what an attempt raises, and on a well-formed graph that holds
    [start] it returns a list whatever the configuration. With
    [attempts <= 0] it returns the empty list and the random generator as
    it was: no walk ran. With [top_k = 0] it runs its attempts, and when
    none raises it returns the empty list and the generator as the
    attempts left it. *)
Theorem search_validates_nothing
    great_circle rng shuffle G start target_dist margin attempts top_k g :
  Main.find_top_loops great_circle rng shuffle G start target_dist margin
    attempts top_k g
  = match
      search_loop
        (Main.random_loop great_circle rng shuffle G start target_dist margin 120)
        (range1 attempts) {| results := []; seen_hashes := ∅ |} g
    with
    | (Raised e, g') => (Raised e, g')
    | (Returned s, g') => (Returned (slice_to (sort_reverse (results s)) top_k), g')
    end
  ∧ MainCopy.find_top_loops great_circle rng shuffle G start target_dist margin
      attempts top_k g
    = match
        search_loop
          (MainCopy.random_loop great_circle rng shuffle G start target_dist margin 200)
          (range1 attempts) {| results := []; seen_hashes := ∅ |} g
      with
      | (Raised e, g') => (Raised e, g')
      | (Returned s, g') => (Returned (slice_to (sort_reverse (results s)) top_k), g')
      end
  ∧ (well_formed G -> is_Some (g_nodes G !! start) ->
     (exists rs g',
        Main.find_top_loops great_circle rng shuffle G start target_dist margin
          attempts top_k g = (Returned rs, g'))
     ∧ (exists rs g',
          MainCopy.find_top_loops great_circle rng shuffle G start target_dist margin
            attempts top_k g = (Returned rs, g')))
  ∧ (attempts ≤ 0 ->
     Main.find_top_loops great_circle rng shuffle G start target_dist margin
       attempts top_k g = (Returned [], g)
     ∧ MainCopy.find_top_loops great_circle rng shuffle G start target_dist margin
         attempts top_k g = (Returned [], g))
  ∧ (forall rs g',
       Main.find_top_loops great_circle rng shuffle G start target_dist margin
         attempts 0 g = (Returned rs, g') ->
       rs = []
       ∧ exists s,
           search_loop
             (Main.random_loop great_circle rng shuffle G start target_dist margin 120)
             (range1 attempts) {| results := []; seen_hashes := ∅ |} g
           = (Returned s, g'))
  ∧ (forall rs g',
       MainCopy.find_top_loops great_circle rng shuffle G start target_dist margin
         attempts 0 g = (Returned rs, g') ->
       rs = []
       ∧ exists s,
           search_loop
             (MainCopy.random_loop great_circle rng shuffle G start target_dist margin 200)
             (range1 attempts) {| results := []; seen_hashes := ∅ |} g
           = (Returned s, g')).
Proof.
  split_and!.
  - unfold Main.find_top_loops. rewrite main_attempts_loop_search.
    by destruct (search_loop _ _ _ _) as [[s|e] g1].
  - unfold MainCopy.find_top_loops. rewrite copy_attempts_loop_search.
    by destruct (search_loop _ _ _ _) as [[s|e] g1].
  - intros Hwf Hstart. split.
    + unfold Main.find_top_loops. rewrite main_attempts_loop_search.
      destruct (search_loop_no_raise
                  (Main.random_loop great_circle rng shuffle G start target_dist margin 120)
                  (range1 attempts) {| results := []; seen_hashes := ∅ |} g)
        as (s & g' & ->); [|by eexists _, _].
      intros i g0. apply main_walk_no_raise; [done..|apply main_initial_along].
    + unfold MainCopy.find_top_loops. rewrite copy_attempts_loop_search.
      destruct (search_loop_no_raise
                  (MainCopy.random_loop great_circle rng shuffle G start target_dist
                     margin 200)
                  (range1 attempts) {| results := []; seen_hashes := ∅ |} g)
        as (s & g' & ->); [|by eexists _, _].
      intros i g0. apply copy_walk_no_raise; [done..|apply copy_initial_along].
  - intros Hle. unfold Main.find_top_loops, MainCopy.find_top_loops.
    rewrite (range1_nonpositive _ Hle). simpl. by rewrite slice_to_nil.
  - intros rs g'. unfold Main.find_top_loops. rewrite main_attempts_loop_search.
    destruct (search_loop _ _ _ _) as [[s|e] g1]; [|discriminate].
    intros H. injection H as <- <-. split; [reflexivity | by exists s].
  - intros rs g'. unfold MainCopy.find_top_loops. rewrite copy_attempts_loop_search.
    destruct (search_loop _ _ _ _) as [[s|e] g1]; [|discriminate].
    intros H. injection H as <- <-. split; [reflexivity | by exists s].
Qed.

Lemma search_validates_nothing_witness :
  ((exists rs g',
      Main.find_top_loops Examples.planar_distance nat Examples.keep_order
        (Examples.triangle (Some 100%Q)) 1 (-300)%Q (1#10)%Q 1 3 0%nat
      = (Returned rs, g'))
   ∧ (exists rs g',
        MainCopy.find_top_loops Examples.planar_distance nat Examples.keep_order
          (Examples.triangle (Some 100%Q)) 1 (-300)%Q (1#10)%Q 1 3 0%nat
        = (Returned rs, g')))
  ∧ (Main.find_top_loops Examples.planar_distance nat Examples.keep_order
       (Examples.triangle (Some 100%Q)) 1 300%Q (1#10)%Q 0 3 0%nat = (Returned [], 0%nat)
     ∧ MainCopy.find_top_loops Examples.planar_distance nat Examples.keep_order
         (Examples.triangle (Some 100%Q)) 1 300%Q (1#10)%Q 0 3 0%nat
       = (Returned [], 0%nat)).
Proof.
  split.
  - destruct (search_validates_nothing Examples.planar_distance nat Examples.keep_order
                (Examples.triangle (Some 100%Q)) 1 (-300)%Q (1#10)%Q 1 3 0%nat)
      as (_ & _ & Hreturns & _).
    apply Hreturns; by_compute.
  - destruct (search_validates_nothing Examples.planar_distance nat Examples.keep_order
                (Examples.triangle (Some 100%Q)) 1 300%Q (1#10)%Q 0 3 0%nat)
      as (_ & _ & _ & Hnone & _).
    apply Hnone. lia.
Defined.
